(** * me.AnimationSheet: the sprite animation controller of melonJS

    A shallow embedding of [me.AnimationSheet] (init, addAnimation,
    setCurrentAnimation, isCurrentAnimation, setAnimationFrame,
    getCurrentAnimationFrame, update) and the properties of its frame
    timing, looping, chaining and error behaviour.

    Modelling choices.
    - JavaScript numbers are integers ([Z]); the one non-integer the code
      can produce from integers, [NaN] (a remainder by zero), is kept.
    - [this.anim] is a JS object used as a map from names to animation
      objects: a [gmap] from names to locations of a store of animation
      objects.  [this.current] is a reference to one of these objects, so
      the frame cursor and countdown live in the shared object, not in the
      sheet.
    - [this.anim] is created as [{}], so [this.anim[name]] also finds the
      properties that every object inherits from [Object.prototype]
      ([constructor], [toString], ...), unless an animation of that name
      shadows them.  The sheet carries these inherited values
      ([inherited]; a new sheet has those of ECMAScript 5), and
      [this.current] can come to refer to one of them.  Names are stored
      as plain keys: on a host where [__proto__] is an accessor, an
      animation of that name would also replace what [this.anim] inherits,
      which is not modelled.
    - A thrown exception leaves the mutations made before it in place:
      every operation returns the final sheet together with either its
      value or the error thrown. *)

From stdpp Require Import gmap strings list.
From Stdlib Require Import ZArith Lia.

Local Open Scope Z_scope.

(** ** JavaScript values *)

Inductive number := Int (z : Z) | NaN.

(** [a % b]: the remainder takes the sign of the dividend; by zero it is NaN. *)
Definition js_rem (a b : number) : number :=
  match a, b with
  | Int x, Int y => if y =? 0 then NaN else Int (Z.rem x y)
  | _, _ => NaN
  end.

(** [++a] *)
Definition js_succ (a : number) : number :=
  match a with Int x => Int (x + 1) | NaN => NaN end.

(** [a || 0] for an optional numeric argument: undefined, 0 and NaN are falsy. *)
Definition or_zero (a : option number) : number :=
  match a with
  | Some (Int z) => Int z
  | Some NaN | None => Int 0
  end.

(** [a === 0] *)
Definition is_zero (a : number) : bool :=
  match a with Int z => z =? 0 | NaN => false end.

(** What a completion callback may return. *)
Inductive value :=
  | VUndefined
  | VBool (b : bool)
  | VNumber (n : number)
  | VString (s : string).

(** [v === false] *)
Definition strict_false (v : value) : bool :=
  match v with VBool false => true | _ => false end.

(** [arr[i]] on an array of possibly undefined entries. *)
Definition array_get {A} (arr : list (option A)) (i : number) : option A :=
  match i with
  | Int z => if z <? 0 then None else mjoin (arr !! Z.to_nat z)
  | NaN => None
  end.

(** [arr[i] = v]: in range it overwrites, past the end the array grows and
    the skipped positions are holes. *)
Definition array_set {A} (i : nat) (v : option A) (arr : list (option A))
  : list (option A) :=
  if decide (i < length arr)%nat then <[i := v]> arr
  else arr ++ replicate (i - length arr) None ++ [v].

(** ** Frames, animations, the sheet *)

Module Frame.
Record t := mk { offset : Z * Z; width : Z; height : Z; angle : Z }.
End Frame.

Module Anim.
Record t := mk {
  name : string;
  frame : list (option Frame.t);
  idx : number;
  length : Z;
  animationspeed : Z;
  nextFrame : Z
}.

Definition set_frame (v : list (option Frame.t)) (a : t) : t :=
  mk (name a) v (idx a) (length a) (animationspeed a) (nextFrame a).
Definition set_idx (v : number) (a : t) : t :=
  mk (name a) (frame a) v (length a) (animationspeed a) (nextFrame a).
Definition set_length (v : Z) (a : t) : t :=
  mk (name a) (frame a) (idx a) v (animationspeed a) (nextFrame a).
Definition set_nextFrame (v : Z) (a : t) : t :=
  mk (name a) (frame a) (idx a) (length a) (animationspeed a) v.
End Anim.

(** A value that [this.anim[name]] finds on the prototype chain of
    [this.anim] instead of an animation: a function of [Object.prototype]
    with its [name] and its [length] (the number of its parameters), or any
    other object the host puts there (None is undefined).  It has no
    [frame] and no [animationspeed].  [idx] and [nextFrame] are the
    properties the sheet writes on it once [this.current] refers to it.
    Until the first write they are undefined, and the only reads that can
    come before it are [this.current.idx] under [|| 0] in
    setCurrentAnimation and [this.current.nextFrame] under [-=] in update,
    where undefined and NaN give the same; so "not written yet" is kept as
    NaN.  So is the undefined that [nextFrame = animationspeed] writes: it
    is only ever read back under [-=]. *)
Module Host.
Record t := mk {
  name : option string;
  length : option Z;
  idx : number;
  nextFrame : number
}.

Definition set_idx (v : number) (h : t) : t :=
  mk (name h) (length h) v (nextFrame h).
Definition set_nextFrame (v : number) (h : t) : t :=
  mk (name h) (length h) (idx h) v.

(** [this.current.length] as a number. *)
Definition length_number (h : t) : number :=
  match length h with Some n => Int n | None => NaN end.
End Host.

(** An entry of the [index] argument of addAnimation: a sprite index or a
    sprite name. *)
Inductive index_entry := INum (z : Z) | IStr (s : string).

(** The [onComplete] argument of setCurrentAnimation: an animation id to
    switch to, or a callback (named by a number, see [callback] below). *)
Inductive completion := Chain (id : string) | Callback (f : nat).

Inductive error :=
  | RenderableError (msg : string)   (* me.Renderable.Error *)
  | TypeError.                       (* property access on null/undefined *)

(** Locations in the store of animation objects. *)
Abbreviation loc := nat (only parsing).

Record Sheet := mkSheet {
  animationpause : bool;
  animationspeed : Z;
  anim : gmap string loc;
  resetAnim : option completion;            (* None is null *)
  (* this.current: the animation object it refers to ... *)
  current : option loc;
  textureAtlas : list Frame.t;
  atlasIndices : option (gmap string Z);    (* None is null *)
  (* fields of me.Sprite written by setAnimationFrame *)
  offset : Z * Z;
  width : Z;
  height : Z;
  _sourceAngle : Z;
  (* the store of animation objects *)
  heap : list Anim.t;
  (* instrumentation: how many times a completion callback has been called *)
  cb_calls : nat;
  (* what this.anim inherits from Object.prototype, by property name *)
  inherited : gmap string Host.t;
  (* ... or, when [current] is None, the inherited value this.current refers
     to, by the name it was found under; both None is null *)
  current_inherited : option string
}.

Definition set_anim (v : gmap string loc) (s : Sheet) : Sheet :=
  mkSheet (animationpause s) (animationspeed s) v (resetAnim s) (current s)
    (textureAtlas s) (atlasIndices s) (offset s) (width s) (height s)
    (_sourceAngle s) (heap s) (cb_calls s)
    (inherited s) (current_inherited s).
Definition set_resetAnim (v : option completion) (s : Sheet) : Sheet :=
  mkSheet (animationpause s) (animationspeed s) (anim s) v (current s)
    (textureAtlas s) (atlasIndices s) (offset s) (width s) (height s)
    (_sourceAngle s) (heap s) (cb_calls s)
    (inherited s) (current_inherited s).
(** [this.current = <an animation object, or null>] *)
Definition set_current (v : option loc) (s : Sheet) : Sheet :=
  mkSheet (animationpause s) (animationspeed s) (anim s) (resetAnim s) v
    (textureAtlas s) (atlasIndices s) (offset s) (width s) (height s)
    (_sourceAngle s) (heap s) (cb_calls s)
    (inherited s) None.
(** [this.current = <the value inherited under k>] *)
Definition set_current_inherited (k : string) (s : Sheet) : Sheet :=
  mkSheet (animationpause s) (animationspeed s) (anim s) (resetAnim s) None
    (textureAtlas s) (atlasIndices s) (offset s) (width s) (height s)
    (_sourceAngle s) (heap s) (cb_calls s) (inherited s) (Some k).
Definition set_inherited (v : gmap string Host.t) (s : Sheet) : Sheet :=
  mkSheet (animationpause s) (animationspeed s) (anim s) (resetAnim s)
    (current s) (textureAtlas s) (atlasIndices s) (offset s) (width s)
    (height s) (_sourceAngle s) (heap s) (cb_calls s) v (current_inherited s).
Definition set_geometry (f : Frame.t) (s : Sheet) : Sheet :=
  mkSheet (animationpause s) (animationspeed s) (anim s) (resetAnim s)
    (current s) (textureAtlas s) (atlasIndices s) (Frame.offset f)
    (Frame.width f) (Frame.height f) (Frame.angle f) (heap s) (cb_calls s)
    (inherited s) (current_inherited s).
Definition set_heap (v : list Anim.t) (s : Sheet) : Sheet :=
  mkSheet (animationpause s) (animationspeed s) (anim s) (resetAnim s)
    (current s) (textureAtlas s) (atlasIndices s) (offset s) (width s)
    (height s) (_sourceAngle s) v (cb_calls s)
    (inherited s) (current_inherited s).
Definition set_cb_calls (v : nat) (s : Sheet) : Sheet :=
  mkSheet (animationpause s) (animationspeed s) (anim s) (resetAnim s)
    (current s) (textureAtlas s) (atlasIndices s) (offset s) (width s)
    (height s) (_sourceAngle s) (heap s) v
    (inherited s) (current_inherited s).
Definition set_animationpause (v : bool) (s : Sheet) : Sheet :=
  mkSheet v (animationspeed s) (anim s) (resetAnim s)
    (current s) (textureAtlas s) (atlasIndices s) (offset s) (width s)
    (height s) (_sourceAngle s) (heap s) (cb_calls s)
    (inherited s) (current_inherited s).

(** ** The monad of sheet methods: state, and exceptions that keep it *)

Inductive result (A : Type) := Ret (a : A) | Throw (e : error).
Arguments Ret {A} a.
Arguments Throw {A} e.

Definition M (A : Type) : Type := Sheet -> Sheet * result A.

Definition ret {A} (a : A) : M A := fun s => (s, Ret a).
Definition throw {A} (e : error) : M A := fun s => (s, Throw e).
Definition bind {A B} (m : M A) (k : A -> M B) : M B :=
  fun s => match m s with
           | (s', Ret a) => k a s'
           | (s', Throw e) => (s', Throw e)
           end.
Definition gets {A} (f : Sheet -> A) : M A := fun s => (s, Ret (f s)).
Definition modify (f : Sheet -> Sheet) : M unit := fun s => (f s, Ret tt).

Notation "'do' x <- m ; k" := (bind m (fun x => k))
  (at level 10, x name, m at level 100, k at level 200).

(** [this.current], when it refers to an inherited value: the name it was
    found under, and the value. *)
Definition host_current (s : Sheet) : option (string * Host.t) :=
  match current s with
  | Some _ => None
  | None =>
      match current_inherited s with
      | Some k => (fun h => (k, h)) <$> inherited s !! k
      | None => None
      end
  end.

(** The statements of a method that read and write [this.current]:
    [on_anim] when it refers to an animation object or is null, [on_host k h]
    when it refers to the value [h] inherited under [k]. *)
Definition on_current {A} (on_anim : M A) (on_host : string -> Host.t -> M A)
  : M A := fun s =>
  match host_current s with
  | Some (k, h) => on_host k h s
  | None => on_anim s
  end.

(** [this.current.<field> = ...] on the inherited value [k]. *)
Definition store_host (k : string) (h : Host.t) : M unit :=
  modify (fun s => set_inherited (<[k := h]> (inherited s)) s).

(** [this.current.<field>]: a TypeError when [this.current] is null. *)
Definition load_current : M Anim.t := fun s =>
  match current s with
  | Some l =>
      match heap s !! l with
      | Some a => (s, Ret a)
      | None => (s, Throw TypeError)
      end
  | None => (s, Throw TypeError)
  end.

(** [this.current.<field> = ...] *)
Definition store_current (f : Anim.t -> Anim.t) : M unit := fun s =>
  match current s with
  | Some l =>
      match heap s !! l with
      | Some a => (set_heap (<[l := f a]> (heap s)) s, Ret tt)
      | None => (s, Throw TypeError)
      end
  | None => (s, Throw TypeError)
  end.

(** [this.anim[name].<field> = ...]: a TypeError when [name] has no entry. *)
Definition store_anim (name : string) (f : Anim.t -> Anim.t) : M unit := fun s =>
  match anim s !! name with
  | Some l =>
      match heap s !! l with
      | Some a => (set_heap (<[l := f a]> (heap s)) s, Ret tt)
      | None => (s, Throw TypeError)
      end
  | None => (s, Throw TypeError)
  end.

(** ** addAnimation *)

Definition UnsupportedLookupKind : error :=
  RenderableError
    "string parameters for addAnimation are only allowed for me.video.renderer.Texture".

(** [animationspeed || this.animationspeed]: an absent or zero speed falls
    back to the sheet's. *)
Definition speed_or (animationspeed : option Z) (dflt : Z) : Z :=
  match animationspeed with
  | Some z => if z =? 0 then dflt else z
  | None => dflt
  end.

(** [index = []; j = 0; textureAtlas.forEach(function () { index[j] = j++; })] *)
Definition default_index (atlas : list Frame.t) : list index_entry :=
  fst (fold_left (fun '(index, j) _ => (index ++ [INum j], j + 1)) atlas ([], 0)).

(** [this.textureAtlas[z]] *)
Definition atlas_get (atlas : list Frame.t) (z : Z) : option Frame.t :=
  if z <? 0 then None else atlas !! Z.to_nat z.

(** The body of the loop over [index], from position [i] on. *)
Fixpoint fill_frames (name : string) (i : nat) (index : list index_entry)
  : M unit :=
  match index with
  | [] => ret tt
  | e :: rest =>
      do _ <- match e with
              | INum z =>
                  do atlas <- gets textureAtlas;
                  store_anim name (fun a =>
                    Anim.set_frame (array_set i (atlas_get atlas z) (Anim.frame a)) a)
              | IStr n =>
                  do indices <- gets atlasIndices;
                  match indices with
                  | None => throw UnsupportedLookupKind
                  | Some tbl =>
                      do atlas <- gets textureAtlas;
                      store_anim name (fun a =>
                        Anim.set_frame
                          (array_set i (tbl !! n ≫= atlas_get atlas) (Anim.frame a)) a)
                  end
              end;
      fill_frames name (S i) rest
  end.

Definition fresh_anim (name : string) (speed : Z) : Anim.t :=
  Anim.mk name [] (Int 0) 0 speed 0.

Definition addAnimation (name : string) (index : option (list index_entry))
    (animationspeed_arg : option Z) : M unit :=
  do dflt <- gets animationspeed;
  do _ <- modify (fun s =>
            set_anim (<[name := length (heap s)]> (anim s))
              (set_heap (heap s ++ [fresh_anim name (speed_or animationspeed_arg dflt)]) s));
  do index <- match index with
              | Some ix => ret ix
              | None => do atlas <- gets textureAtlas; ret (default_index atlas)
              end;
  do _ <- fill_frames name 0 index;
  store_anim name (fun a =>
    Anim.set_length (Z.of_nat (length (Anim.frame a))) a).

(** ** setAnimationFrame, setCurrentAnimation and the queries *)

Definition setAnimationFrame (idx : option number) : M unit :=
  on_current
    (do cur <- load_current;
     do _ <- store_current (Anim.set_idx (js_rem (or_zero idx) (Int (Anim.length cur))));
     do cur <- load_current;
     match array_get (Anim.frame cur) (Anim.idx cur) with
     | Some frame => modify (set_geometry frame)
     | None => throw TypeError
     end)
    (fun k h =>
       do _ <- store_host k
                 (Host.set_idx (js_rem (or_zero idx) (Host.length_number h)) h);
       (* this.current.frame is undefined *)
       throw TypeError).

Definition UnknownSequence (name : string) : error :=
  RenderableError ("animation id '" +:+ name +:+ "' not defined").

(** [resetAnim || null]: the empty string counts as absent. *)
Definition or_null (r : option completion) : option completion :=
  match r with
  | Some (Chain "") | None => None
  | Some c => Some c
  end.

(** [if (this.anim[name])] finds the animation stored under [name], or else
    what [this.anim] inherits under that name; only when there is neither
    does the [else] branch throw. *)
Definition setCurrentAnimation (name : string) (resetAnim_arg : option completion)
  : M unit :=
  do a <- gets (fun s => anim s !! name);
  match a with
  | Some l =>
      do _ <- modify (set_current (Some l));
      do _ <- modify (set_resetAnim (or_null resetAnim_arg));
      do cur <- load_current;
      do _ <- setAnimationFrame (Some (Anim.idx cur));
      do cur <- load_current;
      store_current (Anim.set_nextFrame (Anim.animationspeed cur))
  | None =>
      do h <- gets (fun s => inherited s !! name);
      match h with
      | Some h =>
          do _ <- modify (set_current_inherited name);
          do _ <- modify (set_resetAnim (or_null resetAnim_arg));
          do _ <- setAnimationFrame (Some (Host.idx h));
          (* this.current.animationspeed is undefined *)
          on_current (ret tt) (fun k h => store_host k (Host.set_nextFrame NaN h))
      | None => throw (UnknownSequence name)
      end
  end.

Definition isCurrentAnimation (name : string) : M bool :=
  on_current
    (do cur <- load_current;
     ret (bool_decide (Anim.name cur = name)))
    (fun _ h => ret (bool_decide (Host.name h = Some name))).

Definition getCurrentAnimationFrame : M number :=
  on_current
    (do cur <- load_current;
     ret (Anim.idx cur))
    (fun _ h => ret (Host.idx h)).

(** ** update *)

(** Modelled from the spec: [me.Sprite]'s [update], reached through
    [this._super(me.Sprite, "update", [dt])], is not among the sources.  The
    spec's tick reports false whenever the frame does not change and touches
    nothing but the animation state, so the base update answers false and
    leaves the sheet alone. *)
Definition sprite_update (dt : Z) : M bool := ret false.

Section Update.

(** The completion callbacks: [callback f s] is what calling the function
    named [f] does to the sheet, and what it returns. *)
Variable callback : nat -> Sheet -> Sheet * value.

(** [this.resetAnim()] *)
Definition call (f : nat) : M value := fun s =>
  let '(s', v) := callback f s in
  (set_cb_calls (S (cb_calls s)) s', Ret v).

(** The end of the advance: re-arm the countdown, report a change. *)
Definition rearm (dt : Z) : M bool :=
  do _ <- on_current
            (do cur <- load_current;
             store_current (Anim.set_nextFrame (Anim.animationspeed cur)))
            (* this.current.animationspeed is undefined *)
            (fun k h => store_host k (Host.set_nextFrame NaN h));
  do b <- sprite_update dt;
  ret (b || true).

(** The callback answered false: back to the last frame, no re-arming. *)
Definition hold (dt : Z) : M bool :=
  do _ <- on_current
            (do cur <- load_current;
             do _ <- store_current (Anim.set_idx (Int (Anim.length cur - 1)));
             do cur <- load_current;
             setAnimationFrame (Some (Anim.idx cur)))
            (fun k h =>
               let i := match Host.length h with
                        | Some n => Int (n - 1)
                        | None => NaN
                        end in
               do _ <- store_host k (Host.set_idx i h);
               setAnimationFrame (Some i));
  do _ <- sprite_update dt;
  ret false.

Definition advance (dt : Z) : M bool :=
  do cur <- load_current;
  do _ <- store_current (Anim.set_idx (js_succ (Anim.idx cur)));
  do cur <- load_current;
  do _ <- setAnimationFrame (Some (Anim.idx cur));
  do cur <- load_current;
  do r <- gets resetAnim;
  if is_zero (Anim.idx cur) then
    match r with
    | Some (Chain "") | None => rearm dt
    | Some (Chain id) =>
        do _ <- setCurrentAnimation id None;
        rearm dt
    | Some (Callback f) =>
        do v <- call f;
        if strict_false v then hold dt else rearm dt
    end
  else rearm dt.

Definition update (dt : Z) : M bool :=
  do paused <- gets animationpause;
  if paused then sprite_update dt
  else
    on_current
      (do cur <- load_current;
       if 1 <? Anim.length cur then
         do _ <- store_current (Anim.set_nextFrame (Anim.nextFrame cur - dt));
         do cur <- load_current;
         if Anim.nextFrame cur <=? 0 then advance dt
         else sprite_update dt
       else sprite_update dt)
      (fun k h =>
         if match Host.length h with Some n => 1 <? n | None => false end then
           (* undefined - dt and NaN - dt are NaN, and NaN <= 0 is false *)
           do _ <- store_host k (Host.set_nextFrame NaN h);
           sprite_update dt
         else sprite_update dt).

(** A run of ticks; it stops at the first exception. *)
Fixpoint ticks (dts : list Z) : M (list bool) :=
  match dts with
  | [] => ret []
  | dt :: rest =>
      do b <- update dt;
      do bs <- ticks rest;
      ret (b :: bs)
  end.

End Update.

(** ** init *)

(** Where the frames come from: [settings.atlas] with [settings.indices],
    as me.video.renderer.Texture passes them, or a regular sprite sheet,
    whose cells [buildFromSpriteSheet(settings)] (not among the sources)
    lays out.  The constructor of me.Sprite is not among the sources either:
    the geometry it leaves is a placeholder, overwritten by the first
    setAnimationFrame. *)
Inductive settings :=
  | FromAtlas (atlas : list Frame.t) (indices : gmap string Z)
  | FromSpriteSheet (cells : list Frame.t).

(** The function properties that ECMAScript 5 gives [Object.prototype],
    each with its name and its number of parameters.  ([constructor] is the
    function [Object].  Hosts add more, such as [__defineGetter__].) *)
Definition Object_prototype : gmap string Host.t :=
  list_to_map
    [("constructor", Host.mk (Some "Object") (Some 1) NaN NaN);
     ("toString", Host.mk (Some "toString") (Some 0) NaN NaN);
     ("toLocaleString", Host.mk (Some "toLocaleString") (Some 0) NaN NaN);
     ("valueOf", Host.mk (Some "valueOf") (Some 0) NaN NaN);
     ("hasOwnProperty", Host.mk (Some "hasOwnProperty") (Some 1) NaN NaN);
     ("isPrototypeOf", Host.mk (Some "isPrototypeOf") (Some 1) NaN NaN);
     ("propertyIsEnumerable", Host.mk (Some "propertyIsEnumerable") (Some 1) NaN NaN)].

(** [this.anim = {}] inherits from [Object.prototype]. *)
Definition blank (framewidth frameheight : Z) (st : settings) : Sheet :=
  mkSheet false 100 ∅ None None
    (match st with FromAtlas atlas _ => atlas | FromSpriteSheet cells => cells end)
    (match st with FromAtlas _ indices => Some indices | FromSpriteSheet _ => None end)
    (0, 0) framewidth frameheight 0 [] 0 Object_prototype None.

Definition init (framewidth frameheight : Z) (st : settings) : Sheet * result unit :=
  (do _ <- addAnimation "default" None None;
   setCurrentAnimation "default" None) (blank framewidth frameheight st).

(** ** Observations *)

(** The object [this.current] points to. *)
Definition cur_anim (s : Sheet) : option Anim.t :=
  current s ≫= fun l => heap s !! l.

Definition currentIndex (s : Sheet) : option number := Anim.idx <$> cur_anim s.
Definition remainingMs (s : Sheet) : option Z := Anim.nextFrame <$> cur_anim s.
Definition activeName (s : Sheet) : option string := Anim.name <$> cur_anim s.
Definition activeFrames (s : Sheet) : option (list (option Frame.t)) :=
  Anim.frame <$> cur_anim s.

(** The animation stored under a name. *)
Definition sequence (s : Sheet) (name : string) : option Anim.t :=
  anim s !! name ≫= fun l => heap s !! l.

(** The geometry the sprite is drawn with. *)
Definition geometry (s : Sheet) : Frame.t :=
  Frame.mk (offset s) (width s) (height s) (_sourceAngle s).

(** [active s l a]: [this.current] is the object at [l], whose content is [a]. *)
Definition active (s : Sheet) (l : loc) (a : Anim.t) : Prop :=
  current s = Some l ∧ heap s !! l = Some a.

(** The sheet after the object at [l] has been written. *)
Definition put (l : loc) (a : Anim.t) (s : Sheet) : Sheet :=
  set_heap (<[l := a]> (heap s)) s.

(** ** What addAnimation stores *)

(** The frame one entry of [index] resolves to; [None] when the lookup by
    name is refused. *)
Definition resolve (atlas : list Frame.t) (indices : option (gmap string Z))
    (e : index_entry) : option (option Frame.t) :=
  match e with
  | INum z => Some (atlas_get atlas z)
  | IStr n =>
      match indices with
      | None => None
      | Some tbl => Some (tbl !! n ≫= atlas_get atlas)
      end
  end.

(** The frames resolved up to the first refused entry, and whether the whole
    list went through. *)
Fixpoint resolve_prefix (atlas : list Frame.t) (indices : option (gmap string Z))
    (index : list index_entry) : list (option Frame.t) * bool :=
  match index with
  | [] => ([], true)
  | e :: rest =>
      match resolve atlas indices e with
      | None => ([], false)
      | Some f =>
          let '(fs, ok) := resolve_prefix atlas indices rest in (f :: fs, ok)
      end
  end.

(** The sheet after a new object [a] has been stored under [name]. *)
Definition stored (name : string) (a : Anim.t) (s : Sheet) : Sheet :=
  set_anim (<[name := length (heap s)]> (anim s)) (set_heap (heap s ++ [a]) s).

(** ** Well-formed sheets *)

(** An animation whose [length] is in step with its frame array, whose
    frames are all resolved and whose cursor is a valid index. *)
Definition anim_okb (a : Anim.t) : bool :=
  (Anim.length a =? Z.of_nat (length (Anim.frame a)))
  && forallb (fun f => bool_decide (is_Some f)) (Anim.frame a)
  && match Anim.idx a with
     | Int i => (0 <=? i) && (i <? Anim.length a)
     | NaN => false
     end.

(** [name] is no animation of the sheet, but [this.anim[name]] finds an
    inherited value. *)
Definition merely_inherited (s : Sheet) (name : string) : bool :=
  bool_decide (anim s !! name = None) && bool_decide (is_Some (inherited s !! name)).

(** The same for a completion policy that is a name. *)
Definition policy_okb (s : Sheet) (r : option completion) : bool :=
  match r with
  | Some (Chain id) => negb (merely_inherited s id)
  | _ => true
  end.

(** The object at [l] is a well-formed animation. *)
Definition stored_okb (s : Sheet) (l : loc) : bool :=
  match heap s !! l with
  | Some a => anim_okb a
  | None => false
  end.

(** A sheet whose current animation, and every animation stored under a
    name, is well formed, and whose completion policy is not a merely
    inherited name.  Objects that no name and not [this.current] refers to
    any more do not count. *)
Definition sheet_okb (s : Sheet) : bool :=
  match current s with
  | Some l => stored_okb s l
  | None => false
  end
  && forallb (fun '(_, l) => stored_okb s l) (map_to_list (anim s))
  && policy_okb s (resetAnim s).

Definition anim_ok (a : Anim.t) : Prop := anim_okb a = true.
Definition sheet_ok (s : Sheet) : Prop := sheet_okb s = true.



(** A completion callback [g] that has answered false at a wrap leaves the
    sheet like this: on the last frame, with the countdown run out. *)
Definition held (g : nat) (s : Sheet) : Prop :=
  animationpause s = false ∧ resetAnim s = Some (Callback g) ∧
  ∃ l a, active s l a ∧ anim_ok a ∧ 1 < Anim.length a
         ∧ Anim.idx a = Int (Anim.length a - 1) ∧ Anim.nextFrame a ≤ 0.

(** A method that calls no callback: it leaves the count of calls alone. *)
Definition silent {A} (m : M A) : Prop :=
  ∀ s, cb_calls (fst (m s)) = cb_calls s.

(** ** What the methods leave alone *)

(** Every name points to a stored animation, which carries that name. *)
Definition names_okb (s : Sheet) : bool :=
  forallb (fun '(n, l) =>
             match heap s !! l with
             | Some a => bool_decide (Anim.name a = n)
             | None => false
             end) (map_to_list (anim s)).

Definition names_ok (s : Sheet) : Prop := names_okb s = true.

(** Two animation objects that differ at most by cursor and countdown. *)
Definition same_def (a0 a : Anim.t) : Prop :=
  Anim.name a = Anim.name a0 ∧ Anim.frame a = Anim.frame a0
  ∧ Anim.length a = Anim.length a0
  ∧ Anim.animationspeed a = Anim.animationspeed a0.

(** [same_defs s0 s]: from [s0] to [s] no animation was added, removed or
    re-framed, and the atlas and the default speed are the same; cursors,
    countdowns, the current animation, the completion policy, the pause
    flag and the geometry may differ. *)
Definition same_defs (s0 s : Sheet) : Prop :=
  anim s = anim s0 ∧ textureAtlas s = textureAtlas s0
  ∧ atlasIndices s = atlasIndices s0 ∧ animationspeed s = animationspeed s0
  ∧ Forall2 same_def (heap s0) (heap s).

(** A method that keeps a property of the sheet, also when it throws. *)
Definition keeps (P : Sheet → Prop) {A} (m : M A) : Prop :=
  ∀ s, P s → P (fst (m s)).

(** ** The countdown, as the code runs it and as the spec words it *)

(** What a run of ticks answers when nothing but the countdown matters: a
    due tick re-arms the countdown to the full duration [D]. *)
Fixpoint reset_ticks (D r : Z) (dts : list Z) : list bool :=
  match dts with
  | [] => []
  | dt :: rest =>
      if r - dt <=? 0 then true :: reset_ticks D D rest
      else false :: reset_ticks D (r - dt) rest
  end.

(** The countdown left after such a run. *)
Fixpoint reset_left (D r : Z) (dts : list Z) : Z :=
  match dts with
  | [] => r
  | dt :: rest =>
      if r - dt <=? 0 then reset_left D D rest else reset_left D (r - dt) rest
  end.

(** The spec's wording: the negative remainder of a due tick is carried
    into the next frame's countdown. *)
Fixpoint carry_ticks (D r : Z) (dts : list Z) : list bool :=
  match dts with
  | [] => []
  | dt :: rest =>
      if r - dt <=? 0 then true :: carry_ticks D (r - dt + D) rest
      else false :: carry_ticks D (r - dt) rest
  end.

(** How many ticks of a run changed the frame. *)
Definition advances (bs : list bool) : Z :=
  Z.of_nat (length (filter (fun b => b = true) bs)).

(** ** A sample sheet *)

Definition demo_cell (i : nat) : Frame.t :=
  Frame.mk (64 * Z.of_nat i, 0) 64 64 0.

(** A sprite sheet of eleven 64x64 cells in a row. *)
Definition demo_cells : list Frame.t := map demo_cell (seq 0 11).

(** The sheet after construction and
    [addAnimation("walk", [0,1,2,3,4,5]); addAnimation("eat", [6,6]);
     setCurrentAnimation("walk")]. *)
Definition demo_sheet : Sheet :=
  fst ((do _ <- addAnimation "walk" (Some (map INum [0; 1; 2; 3; 4; 5])) None;
        do _ <- addAnimation "eat" (Some (map INum [6; 6])) None;
        setCurrentAnimation "walk" None)
         (fst (init 64 64 (FromSpriteSheet demo_cells)))).

(** No callback in use: every function returns undefined. *)
Definition no_callbacks : nat → Sheet → Sheet * value :=
  fun _ s => (s, VUndefined).

(** [function () { return false; }] *)
Definition always_false : nat → Sheet → Sheet * value :=
  fun _ s => (s, VBool false).

(** A callback that answers false the first time it is called and true
    from then on. *)
Definition false_once : nat → Sheet → Sheet * value :=
  fun _ s => (s, VBool (negb (cb_calls s =? 0)%nat)).

(** * me.device: watching the sensors, probing the audio codecs

    The part of [me.device] with a state of its own: the accelerometer and
    device-orientation watchers with their private flags, the codec probe
    and the cached pixel ratio.  The browser is modelled as far as these
    functions read and write it: the listeners registered on [window] form a
    set (registering a listener twice is registering it once), [Windows] is
    the WinRT global of a Windows 8 device, undefined elsewhere. *)

Module Device.

(** The default accelerometer of a Windows 8 device. *)
Record Accelerometer := mkAccelerometer {
  minimumReportInterval : Z;
  reportInterval : Z;
  readingchanged : gset nat           (* its 'readingchanged' listeners *)
}.

(** The global [Windows]: whether [Windows.Devices.Sensors.Accelerometer]
    and [Windows.Device.Sensors.Accelerometer] are there, and what
    [Accelerometer.getDefault()] returns (None is null). *)
Record WinRT := mkWinRT {
  Devices : bool;
  Device : bool;
  getDefault : option Accelerometer
}.

Record t := mk {
  hasAccelerometer : bool;
  hasDeviceOrientation : bool;
  sound : bool;
  audioCodecs : gmap string bool;
  (* private variables of the closure *)
  accelInitialized : bool;
  deviceOrientationInitialized : bool;
  (* the browser *)
  listeners : gset (string * nat);    (* event listeners on window *)
  Windows : option WinRT              (* None: typeof Windows === 'undefined' *)
}.

(** The two handlers the module registers. *)
Definition onDeviceMotion : nat := 0.
Definition onDeviceRotate : nat := 1.

Definition set_accelInitialized (v : bool) (d : t) : t :=
  mk (hasAccelerometer d) (hasDeviceOrientation d) (sound d) (audioCodecs d) v
    (deviceOrientationInitialized d) (listeners d) (Windows d).
Definition set_deviceOrientationInitialized (v : bool) (d : t) : t :=
  mk (hasAccelerometer d) (hasDeviceOrientation d) (sound d) (audioCodecs d)
    (accelInitialized d) v (listeners d) (Windows d).
Definition set_listeners (v : gset (string * nat)) (d : t) : t :=
  mk (hasAccelerometer d) (hasDeviceOrientation d) (sound d) (audioCodecs d)
    (accelInitialized d) (deviceOrientationInitialized d) v (Windows d).
Definition set_Windows (v : option WinRT) (d : t) : t :=
  mk (hasAccelerometer d) (hasDeviceOrientation d) (sound d) (audioCodecs d)
    (accelInitialized d) (deviceOrientationInitialized d) (listeners d) v.
Definition set_audio (snd : bool) (codecs : gmap string bool) (d : t) : t :=
  mk (hasAccelerometer d) (hasDeviceOrientation d) snd codecs
    (accelInitialized d) (deviceOrientationInitialized d) (listeners d) (Windows d).

(** [window.addEventListener(type, handler, false)] *)
Definition addEventListener (type : string) (handler : nat) (d : t) : t :=
  set_listeners ({[ (type, handler) ]} ∪ listeners d) d.

(** [window.removeEventListener(type, handler, false)] *)
Definition removeEventListener (type : string) (handler : nat) (d : t) : t :=
  set_listeners (listeners d ∖ {[ (type, handler) ]}) d.

(** [minInterval >= 16 ? minInterval : 25] *)
Definition Interval (minInterval : Z) : Z :=
  if 16 <=? minInterval then minInterval else 25.

Definition watchAccelerometer (d : t) : t * result bool :=
  if hasAccelerometer d then
    if negb (accelInitialized d) then
      match Windows d with
      | None =>
          (set_accelInitialized true (addEventListener "devicemotion" onDeviceMotion d),
           Ret true)
      | Some rt =>
          if Devices rt then
            match getDefault rt with
            | Some accelerometer =>
                let accelerometer' :=
                  mkAccelerometer (minimumReportInterval accelerometer)
                    (Interval (minimumReportInterval accelerometer))
                    ({[ onDeviceMotion ]} ∪ readingchanged accelerometer) in
                (set_accelInitialized true
                   (set_Windows
                      (Some (mkWinRT (Devices rt) (Device rt) (Some accelerometer'))) d),
                 Ret true)
            | None => (set_accelInitialized true d, Ret true)
            end
          else (d, Throw TypeError)
      end
    else (d, Ret true)
  else (d, Ret false).

Definition unwatchAccelerometer (d : t) : t * result unit :=
  if accelInitialized d then
    match Windows d with
    | None =>
        (set_accelInitialized false
           (removeEventListener "devicemotion" onDeviceMotion d), Ret tt)
    | Some rt =>
        if Device rt then
          match getDefault rt with
          | Some accelerometer =>
              let accelerometer' :=
                mkAccelerometer (minimumReportInterval accelerometer)
                  (reportInterval accelerometer)
                  (readingchanged accelerometer ∖ {[ onDeviceMotion ]}) in
              (set_accelInitialized false
                 (set_Windows
                    (Some (mkWinRT (Devices rt) (Device rt) (Some accelerometer'))) d),
               Ret tt)
          | None => (d, Throw TypeError)
          end
        else (d, Throw TypeError)
    end
  else (d, Ret tt).

Definition watchDeviceOrientation (d : t) : t * bool :=
  if hasDeviceOrientation d && negb (deviceOrientationInitialized d) then
    (set_deviceOrientationInitialized true
       (addEventListener "deviceorientation" onDeviceRotate d), false)
  else (d, false).

Definition unwatchDeviceOrientation (d : t) : t :=
  if deviceOrientationInitialized d then
    set_deviceOrientationInitialized false
      (removeEventListener "deviceorientation" onDeviceRotate d)
  else d.

(** [s.replace(/^no$/, '')] *)
Definition replace_no (s : string) : string :=
  if String.eqb s "no" then "" else s.

(** [!!s] for a string. *)
Definition truthy (s : string) : bool := negb (String.eqb s "").

(** The double quote, for the MIME types that carry one. *)
Definition dq : string := String (Ascii.ascii_of_nat 34) EmptyString.

(** [_detectAudio].  [audio] is the [canPlayType] of [new Audio()], or None
    when the constructor throws. *)
Definition _detectAudio (audio : option (string → string)) (d : t) : t :=
  match audio with
  | Some canPlayType =>
      set_audio true
        (<["mp3" := truthy (replace_no (canPlayType "audio/mpeg;"))]>
         (<["opus" :=
              truthy (replace_no
                        (canPlayType ("audio/ogg; codecs=" +:+ dq +:+ "opus" +:+ dq)))]>
         (<["ogg" :=
              truthy (replace_no
                        (canPlayType ("audio/ogg; codecs=" +:+ dq +:+ "vorbis" +:+ dq)))]>
         (<["wav" :=
              truthy (replace_no
                        (canPlayType ("audio/wav; codecs=" +:+ dq +:+ "1" +:+ dq)))]>
         (<["m4a" :=
              truthy (replace_no
                        (if truthy (canPlayType "audio/x-m4a;")
                         then canPlayType "audio/x-m4a;"
                         else canPlayType "audio/aac;"))]>
         (<["weba" :=
              truthy (replace_no
                        (canPlayType ("audio/webm; codecs=" +:+ dq +:+ "vorbis" +:+ dq)))]>
          ∅)))))) d
  | None => d
  end.

Section PixelRatio.

(** The numbers of the pixel ratios, with their truthiness, 1 and
    division, left abstract. *)
Variable num : Type.
Variable is_truthy : num → bool.
Variable one : num.
Variable div : num → num → num.

(** [a || b] for a property [a] that may be undefined. *)
Definition or_else (a : option num) (b : num) : num :=
  match a with
  | Some x => if is_truthy x then x else b
  | None => b
  end.

(** The properties of the screen context that getPixelRatio reads. *)
Record Context := mkContext {
  webkitBackingStorePixelRatio : option num;
  mozBackingStorePixelRatio : option num;
  msBackingStorePixelRatio : option num;
  oBackingStorePixelRatio : option num;
  backingStorePixelRatio : option num
}.

(** [getPixelRatio], on the private variable [devicePixelRatio] (None is
    null), given [window.devicePixelRatio] and the screen context. *)
Definition getPixelRatio (window_devicePixelRatio : option num) (_context : Context)
    (devicePixelRatio : option num) : option num * num :=
  match devicePixelRatio with
  | None =>
      let _devicePixelRatio := or_else window_devicePixelRatio one in
      let _backingStoreRatio :=
        or_else (webkitBackingStorePixelRatio _context)
          (or_else (mozBackingStorePixelRatio _context)
             (or_else (msBackingStorePixelRatio _context)
                (or_else (oBackingStorePixelRatio _context)
                   (or_else (backingStorePixelRatio _context) one)))) in
      (Some (div _devicePixelRatio _backingStoreRatio),
       div _devicePixelRatio _backingStoreRatio)
  | Some r => (Some r, r)
  end.

End PixelRatio.

End Device.

(** * Properties *)

(** ** Running the methods from a known active animation *)

Lemma active_cur_anim s l a : active s l a → cur_anim s = Some a.
Proof. intros [Hc Hh]. unfold cur_anim. rewrite Hc. exact Hh. Qed.

Lemma active_put s l a a' : active s l a → active (put l a' s) l a'.
Proof.
  intros [Hc Hh]. split; [exact Hc|].
  cbn. apply list_lookup_insert_eq. eapply lookup_lt_Some, Hh.
Qed.

Lemma heap_put l a s :
  (l < length (heap s))%nat → heap (put l a s) !! l = Some a.
Proof. intros H. cbn. by apply list_lookup_insert_eq. Qed.

Lemma active_geometry s l a f : active s l a → active (set_geometry f s) l a.
Proof. intros H. exact H. Qed.

Lemma put_put l a b s : put l a (put l b s) = put l a s.
Proof. unfold put. cbn. by rewrite list_insert_insert_eq. Qed.

Lemma put_geometry l a f s : put l a (set_geometry f s) = set_geometry f (put l a s).
Proof. reflexivity. Qed.

Lemma put_same l a s : heap s !! l = Some a → put l a s = s.
Proof.
  intros H. unfold put. rewrite (list_insert_id _ _ _ H). by destruct s.
Qed.

Lemma bind_gets {A B} (f : Sheet → A) (k : A → M B) s :
  bind (gets f) k s = k (f s) s.
Proof. reflexivity. Qed.

Lemma bind_modify {B} (f : Sheet → Sheet) (k : unit → M B) s :
  bind (modify f) k s = k tt (f s).
Proof. reflexivity. Qed.

Lemma bind_load_current {B} (k : Anim.t → M B) s l a :
  active s l a → bind load_current k s = k a s.
Proof. intros [Hc Hh]. unfold bind, load_current. by rewrite Hc, Hh. Qed.

Lemma bind_store_current {B} f (k : unit → M B) s l a :
  active s l a → bind (store_current f) k s = k tt (put l (f a) s).
Proof. intros [Hc Hh]. unfold bind, store_current. by rewrite Hc, Hh. Qed.

Lemma store_current_at f s l a :
  active s l a → store_current f s = (put l (f a) s, Ret tt).
Proof. intros [Hc Hh]. unfold store_current. by rewrite Hc, Hh. Qed.

(** When [this.current] refers to an animation object, the methods run the
    statements written for it. *)
Lemma on_current_at {A} (on_anim : M A) on_host s l a :
  active s l a → on_current on_anim on_host s = on_anim s.
Proof. intros [Hc _]. unfold on_current, host_current. by rewrite Hc. Qed.

Lemma bind_on_current {A B} (on_anim : M A) on_host (k : A → M B) s l a :
  active s l a → bind (on_current on_anim on_host) k s = bind on_anim k s.
Proof. intros H. unfold bind at 1. by rewrite (on_current_at _ _ _ _ _ H). Qed.

(** Evaluate the next access to [this.current] in the goal. *)
Ltac run_cur H :=
  first
    [ rewrite (bind_load_current _ _ _ _ H)
    | rewrite (bind_store_current _ _ _ _ _ H)
    | rewrite (store_current_at _ _ _ _ H) ].

Lemma setAnimationFrame_at idx s l a :
  active s l a →
  setAnimationFrame idx s =
    let a' := Anim.set_idx (js_rem (or_zero idx) (Int (Anim.length a))) a in
    match array_get (Anim.frame a) (Anim.idx a') with
    | Some f => (set_geometry f (put l a' s), Ret tt)
    | None => (put l a' s, Throw TypeError)
    end.
Proof.
  intros H. unfold setAnimationFrame. rewrite (on_current_at _ _ _ _ _ H).
  run_cur H.
  run_cur H.
  run_cur (active_put _ _ _ (Anim.set_idx (js_rem (or_zero idx) (Int (Anim.length a))) a) H).
  cbn. by destruct (array_get _ _).
Qed.

Lemma rearm_at dt s l a :
  active s l a →
  rearm dt s = (put l (Anim.set_nextFrame (Anim.animationspeed a) a) s, Ret true).
Proof.
  intros H. unfold rearm. rewrite (bind_on_current _ _ _ _ _ _ H).
  unfold bind at 1. run_cur H. by run_cur H.
Qed.

Lemma setCurrentAnimation_unknown name r s :
  anim s !! name = None → inherited s !! name = None →
  setCurrentAnimation name r s = (s, Throw (UnknownSequence name)).
Proof.
  intros H Hi. unfold setCurrentAnimation. rewrite bind_gets, H, bind_gets, Hi.
  reflexivity.
Qed.

Lemma setCurrentAnimation_at name r s l a :
  anim s !! name = Some l → heap s !! l = Some a →
  setCurrentAnimation name r s =
    let s1 := set_resetAnim (or_null r) (set_current (Some l) s) in
    let a' := Anim.set_idx (js_rem (or_zero (Some (Anim.idx a))) (Int (Anim.length a))) a in
    match array_get (Anim.frame a) (Anim.idx a') with
    | Some f =>
        (set_geometry f (put l (Anim.set_nextFrame (Anim.animationspeed a) a') s1), Ret tt)
    | None => (put l a' s1, Throw TypeError)
    end.
Proof.
  intros Hn Hh. unfold setCurrentAnimation. rewrite bind_gets, Hn.
  rewrite !bind_modify.
  assert (H1 : active (set_resetAnim (or_null r) (set_current (Some l) s)) l a)
    by (split; [reflexivity | exact Hh]).
  run_cur H1.
  unfold bind at 1. rewrite (setAnimationFrame_at _ _ _ _ H1). cbn zeta.
  destruct (array_get _ _) as [f|]; [|reflexivity].
  pose proof (active_geometry _ _ _ f (active_put _ _ _
    (Anim.set_idx (js_rem (or_zero (Some (Anim.idx a))) (Int (Anim.length a))) a) H1)) as H2.
  run_cur H2. run_cur H2.
  by rewrite put_geometry, put_put.
Qed.

Lemma array_set_end {A} (v : option A) (arr : list (option A)) :
  array_set (length arr) v arr = arr ++ [v].
Proof.
  unfold array_set. case_decide; [lia|].
  by rewrite Nat.sub_diag.
Qed.

Lemma store_anim_at name f s l a :
  anim s !! name = Some l → heap s !! l = Some a →
  store_anim name f s = (put l (f a) s, Ret tt).
Proof. intros Hn Hh. unfold store_anim. by rewrite Hn, Hh. Qed.

Lemma fill_frames_at name index : ∀ i s l a,
  anim s !! name = Some l → heap s !! l = Some a →
  length (Anim.frame a) = i →
  fill_frames name i index s =
    let '(fs, ok) := resolve_prefix (textureAtlas s) (atlasIndices s) index in
    (put l (Anim.set_frame (Anim.frame a ++ fs) a) s,
     if ok then Ret tt else Throw UnsupportedLookupKind).
Proof.
  induction index as [|e rest IH]; intros i s l a Hn Hh Hi.
  - cbn. rewrite app_nil_r.
    replace (Anim.set_frame (Anim.frame a) a) with a by (by destruct a).
    by rewrite (put_same _ _ _ Hh).
  - assert (Hl : (l < length (heap s))%nat) by (eapply lookup_lt_Some, Hh).
    cbn [fill_frames resolve_prefix].
    destruct e as [z|n]; cbn [resolve].
    + unfold bind at 1. rewrite bind_gets.
      rewrite (store_anim_at _ _ _ _ _ Hn Hh). subst i. rewrite array_set_end.
      erewrite IH; [| exact Hn | apply list_lookup_insert_eq, Hl | cbn; by rewrite length_app, Nat.add_comm ].
      cbn [textureAtlas atlasIndices put set_heap].
      destruct (resolve_prefix _ _ rest) as [fs ok].
      rewrite put_put. cbn [Anim.frame Anim.set_frame]. by rewrite <- app_assoc.
    + unfold bind at 1. rewrite bind_gets.
      destruct (atlasIndices s) as [tbl|] eqn:Hai.
      * rewrite bind_gets.
        rewrite (store_anim_at _ _ _ _ _ Hn Hh). subst i. rewrite array_set_end.
        erewrite IH; [| exact Hn | apply list_lookup_insert_eq, Hl | cbn; by rewrite length_app, Nat.add_comm ].
        cbn [textureAtlas atlasIndices put set_heap]. rewrite Hai.
        destruct (resolve_prefix _ _ rest) as [fs ok].
        rewrite put_put. cbn [Anim.frame Anim.set_frame]. by rewrite <- app_assoc.
      * cbn. rewrite app_nil_r.
        replace (Anim.set_frame (Anim.frame a) a) with a by (by destruct a).
        by rewrite (put_same _ _ _ Hh).
Qed.

Lemma addAnimation_at name index speed s :
  addAnimation name index speed s =
    let ix := match index with
              | Some ix => ix
              | None => default_index (textureAtlas s)
              end in
    let v := speed_or speed (animationspeed s) in
    let '(fs, ok) := resolve_prefix (textureAtlas s) (atlasIndices s) ix in
    if ok
    then (stored name (Anim.mk name fs (Int 0) (Z.of_nat (length fs)) v 0) s, Ret tt)
    else (stored name (Anim.mk name fs (Int 0) 0 v 0) s, Throw UnsupportedLookupKind).
Proof.
  unfold addAnimation. rewrite bind_gets, bind_modify.
  set (v := speed_or speed (animationspeed s)).
  set (s1 := set_anim _ _).
  assert (Hn : anim s1 !! name = Some (length (heap s)))
    by (cbn; apply lookup_insert_eq).
  assert (Hh : heap s1 !! length (heap s) = Some (fresh_anim name v))
    by (cbn; apply list_lookup_middle; reflexivity).
  assert (Hput : ∀ x, put (length (heap s)) x s1 = stored name x s).
  { intros x. unfold put, stored, s1. cbn.
    replace (length (heap s)) with (length (heap s) + 0)%nat at 1 by lia.
    by rewrite insert_app_r. }
  set (ix := match index with Some ix => ix | None => default_index (textureAtlas s) end).
  assert (Hix : ∀ B (k : list index_entry → M B),
    bind (match index with
          | Some ix => ret ix
          | None => do atlas <- gets textureAtlas; ret (default_index atlas)
          end) k s1 = k ix s1) by (intros; by destruct index).
  rewrite Hix. unfold bind at 1.
  rewrite (fill_frames_at _ _ _ _ _ _ Hn Hh eq_refl).
  change (textureAtlas s1) with (textureAtlas s).
  change (atlasIndices s1) with (atlasIndices s).
  cbn zeta. destruct (resolve_prefix _ _ ix) as [fs ok].
  cbn [fresh_anim Anim.frame app Anim.set_frame Anim.name Anim.idx Anim.length
       Anim.animationspeed Anim.nextFrame].
  destruct ok.
  - erewrite store_anim_at;
      [| exact Hn | apply heap_put; eapply lookup_lt_Some, Hh ].
    rewrite put_put, Hput. reflexivity.
  - by rewrite Hput.
Qed.

Lemma default_index_fold (atlas : list Frame.t) : ∀ acc j,
  fold_left (fun '(index, j) _ => (index ++ [INum j], j + 1)) atlas (acc, j) =
    (acc ++ map (fun k => INum (j + Z.of_nat k)) (seq 0 (length atlas)),
     j + Z.of_nat (length atlas)).
Proof.
  induction atlas as [|x atlas IH]; intros acc j.
  - cbn. by rewrite app_nil_r, Z.add_0_r.
  - cbn [fold_left length seq map]. rewrite IH.
    rewrite <- app_assoc. cbn [app]. rewrite Z.add_0_r.
    rewrite <- seq_shift, map_map. f_equal; [|lia].
    do 2 f_equal. apply map_ext. intros k. f_equal. lia.
Qed.

(** The default index list is 0, 1, ..., one entry per atlas frame. *)
Lemma default_index_seq atlas :
  default_index atlas = map (fun k => INum (Z.of_nat k)) (seq 0 (length atlas)).
Proof. unfold default_index. by rewrite default_index_fold. Qed.

Lemma resolve_prefix_ordinals atlas indices : ∀ n i,
  (i + n ≤ length atlas)%nat →
  resolve_prefix atlas indices (map (fun k => INum (Z.of_nat k)) (seq i n)) =
    (map Some (take n (drop i atlas)), true).
Proof.
  induction n as [|n IH]; intros i Hle; [reflexivity|].
  cbn [seq map resolve_prefix resolve].
  rewrite IH by lia.
  destruct (lookup_lt_is_Some_2 atlas i ltac:(lia)) as [x Hx].
  rewrite (drop_S _ _ _ Hx). cbn [take map].
  unfold atlas_get. destruct (Z.ltb_spec (Z.of_nat i) 0); [lia|].
  by rewrite Nat2Z.id, Hx.
Qed.

Lemma resolve_prefix_default atlas indices :
  resolve_prefix atlas indices (default_index atlas) = (map Some atlas, true).
Proof.
  rewrite default_index_seq, resolve_prefix_ordinals by (cbn; lia).
  by rewrite drop_0, firstn_all.
Qed.

(** ** Running update from a known active animation *)

Section UpdateFacts.

Variable callback : nat → Sheet → Sheet * value.

Lemma update_paused dt s :
  animationpause s = true → update callback dt s = (s, Ret false).
Proof. intros H. unfold update. by rewrite bind_gets, H. Qed.

Lemma update_short dt s l a :
  active s l a → animationpause s = false → Anim.length a ≤ 1 →
  update callback dt s = (s, Ret false).
Proof.
  intros H Hp Hlen. unfold update. rewrite bind_gets, Hp.
  rewrite (on_current_at _ _ _ _ _ H). run_cur H.
  destruct (Z.ltb_spec 1 (Anim.length a)); [lia | reflexivity].
Qed.

Lemma update_wait dt s l a :
  active s l a → animationpause s = false → 1 < Anim.length a →
  0 < Anim.nextFrame a - dt →
  update callback dt s =
    (put l (Anim.set_nextFrame (Anim.nextFrame a - dt) a) s, Ret false).
Proof.
  intros H Hp Hlen Hnf. unfold update. rewrite bind_gets, Hp.
  rewrite (on_current_at _ _ _ _ _ H). run_cur H.
  destruct (Z.ltb_spec 1 (Anim.length a)); [|lia].
  run_cur H. run_cur (active_put _ _ _ (Anim.set_nextFrame (Anim.nextFrame a - dt) a) H).
  cbn [Anim.nextFrame Anim.set_nextFrame].
  destruct (Z.leb_spec (Anim.nextFrame a - dt) 0); [lia | reflexivity].
Qed.

Lemma update_due dt s l a :
  active s l a → animationpause s = false → 1 < Anim.length a →
  Anim.nextFrame a - dt ≤ 0 →
  update callback dt s =
    advance callback dt (put l (Anim.set_nextFrame (Anim.nextFrame a - dt) a) s).
Proof.
  intros H Hp Hlen Hnf. unfold update. rewrite bind_gets, Hp.
  rewrite (on_current_at _ _ _ _ _ H). run_cur H.
  destruct (Z.ltb_spec 1 (Anim.length a)); [|lia].
  run_cur H. run_cur (active_put _ _ _ (Anim.set_nextFrame (Anim.nextFrame a - dt) a) H).
  cbn [Anim.nextFrame Anim.set_nextFrame].
  destruct (Z.leb_spec (Anim.nextFrame a - dt) 0); [reflexivity | lia].
Qed.

Lemma advance_at dt s l a i f :
  active s l a → Anim.idx a = Int i → Anim.length a ≠ 0 →
  array_get (Anim.frame a) (Int (Z.rem (i + 1) (Anim.length a))) = Some f →
  advance callback dt s =
    let j := Z.rem (i + 1) (Anim.length a) in
    let s1 := set_geometry f (put l (Anim.set_idx (Int j) a) s) in
    if j =? 0 then
      match resetAnim s with
      | Some (Chain "") | None => rearm dt s1
      | Some (Chain id) => bind (setCurrentAnimation id None) (fun _ => rearm dt) s1
      | Some (Callback g) =>
          bind (call callback g)
            (fun v => if strict_false v then hold dt else rearm dt) s1
      end
    else rearm dt s1.
Proof.
  intros H Hi Hlen Hf. unfold advance.
  run_cur H. run_cur H.
  pose proof (active_put _ _ _ (Anim.set_idx (js_succ (Anim.idx a)) a) H) as H1.
  run_cur H1.
  unfold bind at 1. rewrite (setAnimationFrame_at _ _ _ _ H1).
  cbn [Anim.idx Anim.set_idx Anim.length Anim.frame].
  rewrite Hi. cbn [js_succ or_zero js_rem].
  destruct (Z.eqb_spec (Anim.length a) 0); [done|].
  cbn zeta. cbn [Anim.idx]. rewrite Hf. rewrite put_put.
  change (Anim.set_idx ?x (Anim.set_idx _ a)) with (Anim.set_idx x a).
  set (a1 := Anim.set_idx _ a).
  assert (H2 : active (set_geometry f (put l a1 s)) l a1)
    by (apply active_geometry, (active_put _ _ _ _ H)).
  run_cur H2. rewrite bind_gets.
  change (resetAnim (set_geometry f (put l a1 s))) with (resetAnim s).
  subst a1. cbn [Anim.idx Anim.set_idx is_zero].
  destruct (_ =? 0); [|reflexivity].
  by destruct (resetAnim s) as [[[|]|]|].
Qed.

Lemma hold_at dt s l a f :
  active s l a → 1 ≤ Anim.length a →
  array_get (Anim.frame a) (Int (Anim.length a - 1)) = Some f →
  hold dt s =
    (set_geometry f (put l (Anim.set_idx (Int (Anim.length a - 1)) a) s), Ret false).
Proof.
  intros H Hlen Hf. unfold hold. rewrite (bind_on_current _ _ _ _ _ _ H).
  unfold bind at 1. run_cur H. run_cur H.
  pose proof (active_put _ _ _ (Anim.set_idx (Int (Anim.length a - 1)) a) H) as H1.
  run_cur H1.
  unfold bind at 1. rewrite (setAnimationFrame_at _ _ _ _ H1).
  cbn [Anim.idx Anim.set_idx Anim.length Anim.frame or_zero js_rem].
  destruct (Z.eqb_spec (Anim.length a) 0); [lia|].
  rewrite Z.rem_small by lia.
  cbn zeta. cbn [Anim.idx]. rewrite Hf. by rewrite put_put.
Qed.

End UpdateFacts.

(** ** Errors of setCurrentAnimation and addAnimation *)

Lemma setCurrentAnimation_defined name r s l :
  anim s !! name = Some l →
  snd (setCurrentAnimation name r s) = Ret tt
  ∨ snd (setCurrentAnimation name r s) = Throw TypeError.
Proof.
  intros Hn. destruct (heap s !! l) as [a|] eqn:Hh.
  - rewrite (setCurrentAnimation_at _ _ _ _ _ Hn Hh). cbn zeta.
    destruct (array_get _ _); cbn; auto.
  - right. unfold setCurrentAnimation. rewrite bind_gets, Hn, !bind_modify.
    unfold bind, load_current. cbn. by rewrite Hh.
Qed.

(** A name that [this.anim] merely inherits: the inherited value becomes
    [this.current], the policy is stored, the value gets an [idx], and the
    read of its missing [frame] throws. *)
Lemma setCurrentAnimation_inherited name r s h :
  anim s !! name = None → inherited s !! name = Some h →
  setCurrentAnimation name r s =
    (set_inherited
       (<[name := Host.set_idx (js_rem (or_zero (Some (Host.idx h)))
                                  (Host.length_number h)) h]> (inherited s))
       (set_resetAnim (or_null r) (set_current_inherited name s)),
     Throw TypeError).
Proof.
  intros Hn Hi. unfold setCurrentAnimation.
  rewrite bind_gets, Hn, bind_gets, Hi, !bind_modify.
  unfold bind at 1. unfold setAnimationFrame, on_current, host_current.
  cbn [current current_inherited inherited set_resetAnim set_current_inherited].
  rewrite Hi. reflexivity.
Qed.

(** C7, as the code has it.  The test [if (this.anim[name])] also succeeds
    for a name that is no animation of the sheet but a property that
    [this.anim] inherits from [Object.prototype], such as [constructor].
    For such a name setCurrentAnimation does not throw the "animation id
    ... not defined" error: it replaces the current animation by the
    inherited value, stores the completion policy, and throws a TypeError
    when it reads the frames that value does not have.  The "not defined"
    error is thrown exactly for the names that are neither stored nor
    inherited, and then the sheet is left as it was. *)
Theorem setCurrentAnimation_inherited_name name r s :
  (∀ h, anim s !! name = None → inherited s !! name = Some h →
     snd (setCurrentAnimation name r s) = Throw TypeError
     ∧ cur_anim (fst (setCurrentAnimation name r s)) = None
     ∧ host_current (fst (setCurrentAnimation name r s))
       = Some (name, Host.set_idx (js_rem (or_zero (Some (Host.idx h)))
                                     (Host.length_number h)) h)
     ∧ resetAnim (fst (setCurrentAnimation name r s)) = or_null r)
  ∧ (snd (setCurrentAnimation name r s) = Throw (UnknownSequence name)
     ↔ anim s !! name = None ∧ inherited s !! name = None)
  ∧ (anim s !! name = None → inherited s !! name = None →
     setCurrentAnimation name r s = (s, Throw (UnknownSequence name))).
Proof.
  split; [|split].
  - intros h Hn Hi. rewrite (setCurrentAnimation_inherited _ r _ _ Hn Hi).
    cbn [fst snd]. split; [done|]. split; [done|]. split; [|done].
    unfold host_current. cbn. by rewrite lookup_insert_eq.
  - destruct (anim s !! name) as [l|] eqn:Hn.
    + destruct (setCurrentAnimation_defined name r s l Hn) as [H|H];
        rewrite H; split; [discriminate | by intros [? _]
                          | discriminate | by intros [? _]].
    + destruct (inherited s !! name) as [h|] eqn:Hi.
      * rewrite (setCurrentAnimation_inherited _ r _ _ Hn Hi). cbn [snd].
        split; [discriminate | by intros [_ ?]].
      * by rewrite (setCurrentAnimation_unknown _ _ _ Hn Hi).
  - apply setCurrentAnimation_unknown.
Qed.

Lemma setCurrentAnimation_inherited_name_witness :
  snd (setCurrentAnimation "constructor" None demo_sheet) = Throw TypeError
  ∧ activeName demo_sheet = Some "walk"
  ∧ activeName (fst (setCurrentAnimation "constructor" None demo_sheet)) = None
  ∧ setCurrentAnimation "jump" None demo_sheet
    = (demo_sheet, Throw (UnknownSequence "jump")).
Proof.
  destruct (setCurrentAnimation_inherited_name "constructor" None demo_sheet)
    as (Hin & _ & _).
  destruct (Hin (Host.mk (Some "Object") (Some 1) NaN NaN)) as (H1 & H2 & _);
    [vm_compute; reflexivity | vm_compute; reflexivity |].
  split; [exact H1|]. split; [vm_compute; reflexivity|].
  split; [unfold activeName; by rewrite H2|].
  destruct (setCurrentAnimation_inherited_name "jump" None demo_sheet)
    as (_ & _ & Hun).
  apply Hun; vm_compute; reflexivity.
Defined.

Lemma resolve_prefix_fails atlas indices ix :
  snd (resolve_prefix atlas indices ix) = false
  ↔ indices = None ∧ ∃ n, IStr n ∈ ix.
Proof.
  induction ix as [|e rest IH]; cbn [resolve_prefix].
  - split; [discriminate|]. intros [_ [n Hn]]. by apply not_elem_of_nil in Hn.
  - destruct e as [z|n]; cbn [resolve].
    + destruct (resolve_prefix atlas indices rest) as [fs ok]. cbn [snd] in *.
      rewrite IH. split; intros [H [n Hn]]; (split; [done|]); exists n.
      * apply elem_of_cons; by right.
      * apply elem_of_cons in Hn as [Hn|Hn]; [discriminate | done].
    + destruct indices as [tbl|].
      * destruct (resolve_prefix atlas (Some tbl) rest) as [fs ok]. cbn [snd] in *.
        rewrite IH. split; intros [H _]; discriminate.
      * cbn [snd]. split; [|done]. intros _. split; [done|].
        exists n. apply elem_of_cons; by left.
Qed.

(** C8.  addAnimation throws the "string parameters ... only allowed for
    me.video.renderer.Texture" error exactly when the sheet has no table of
    names ([atlasIndices] is null) and some entry of the index list is a
    name; it throws nothing else, so a list of ordinals, or no list, goes
    through. *)
Theorem addAnimation_unsupported_exactly name index speed s :
  (snd (addAnimation name index speed s) = Throw UnsupportedLookupKind
     ↔ atlasIndices s = None ∧ ∃ ix n, index = Some ix ∧ IStr n ∈ ix)
  ∧ (snd (addAnimation name index speed s) = Ret tt
     ∨ snd (addAnimation name index speed s) = Throw UnsupportedLookupKind).
Proof.
  rewrite addAnimation_at. cbn zeta.
  destruct index as [ix|].
  - pose proof (resolve_prefix_fails (textureAtlas s) (atlasIndices s) ix) as Hf.
    destruct (resolve_prefix _ _ ix) as [fs ok]. cbn [snd] in Hf.
    destruct ok; cbn [snd].
    + split; [|by left]. split; [discriminate|].
      intros [Ha (ix' & n & [= <-] & Hn)].
      assert (true = false) by (apply Hf; eauto). discriminate.
    + split; [|by right]. split; [|done]. intros _.
      destruct Hf as [Hf _]. destruct (Hf eq_refl) as [Ha [n Hn]].
      split; [done|]. by exists ix, n.
  - rewrite resolve_prefix_default. cbn [snd].
    split; [|by left]. split; [discriminate|].
    intros [_ (ix & n & H & _)]. discriminate.
Qed.

Lemma addAnimation_unsupported_exactly_witness :
  snd (addAnimation "wave" (Some [INum 1; IStr "hand"]) None demo_sheet)
    = Throw UnsupportedLookupKind
  ∧ snd (addAnimation "wave" (Some [INum 1; INum 2]) None demo_sheet)
    ≠ Throw UnsupportedLookupKind.
Proof.
  split.
  - apply (addAnimation_unsupported_exactly "wave" (Some [INum 1; IStr "hand"])
             None demo_sheet).
    split; [reflexivity|].
    exists [INum 1; IStr "hand"], "hand". split; [reflexivity|].
    apply elem_of_cons; right; apply elem_of_cons; by left.
  - intros H.
    apply (addAnimation_unsupported_exactly "wave" (Some [INum 1; INum 2])
             None demo_sheet) in H.
    destruct H as [_ (ix & n & [= <-] & Hn)].
    repeat (apply elem_of_cons in Hn as [Hn|Hn]; [discriminate|]).
    by apply not_elem_of_nil in Hn.
Defined.

Lemma resolve_prefix_stops atlas indices zs n post :
  indices = None →
  resolve_prefix atlas indices (map INum zs ++ IStr n :: post)
    = (map (atlas_get atlas) zs, false).
Proof.
  intros ->. induction zs as [|z zs IH]; [reflexivity|].
  cbn [map app resolve_prefix resolve]. by rewrite IH.
Qed.

Lemma sequence_stored name a s : sequence (stored name a s) name = Some a.
Proof.
  unfold sequence, stored. cbn. rewrite lookup_insert_eq. cbn.
  by apply list_lookup_middle.
Qed.

(** C9.  addAnimation is not atomic.  When the sheet has no table of names
    and the index list is some ordinals followed by a name, the call throws,
    yet [this.anim[name]] already is a fresh object, replacing whatever the
    name held before, with the frames of the ordinals before the name and
    nothing after; its [length] is still 0. *)
Theorem addAnimation_not_atomic name zs n post speed s :
  atlasIndices s = None →
  let r := addAnimation name (Some (map INum zs ++ IStr n :: post)) speed s in
  snd r = Throw UnsupportedLookupKind
  ∧ anim (fst r) !! name = Some (length (heap s))
  ∧ heap s !! length (heap s) = None
  ∧ sequence (fst r) name
    = Some (Anim.mk name (map (atlas_get (textureAtlas s)) zs) (Int 0) 0
              (speed_or speed (animationspeed s)) 0).
Proof.
  intros Ha r. subst r. rewrite addAnimation_at. cbn zeta.
  rewrite (resolve_prefix_stops _ _ _ _ _ Ha). cbn [fst snd].
  split; [done|]. split; [cbn; apply lookup_insert_eq|].
  split; [by apply lookup_ge_None_2|]. apply sequence_stored.
Qed.

Lemma addAnimation_not_atomic_witness :
  (Anim.frame <$> sequence demo_sheet "walk") = Some (map Some (take 6 demo_cells))
  ∧ let r := addAnimation "walk" (Some [INum 3; IStr "step"; INum 4]) None demo_sheet in
    snd r = Throw UnsupportedLookupKind
    ∧ sequence (fst r) "walk"
      = Some (Anim.mk "walk" [Some (demo_cell 3)] (Int 0) 0 100 0).
Proof.
  split; [vm_compute; reflexivity|].
  destruct (addAnimation_not_atomic "walk" [3] "step" [INum 4] None demo_sheet
              eq_refl) as (H1 & _ & _ & H2).
  split; [exact H1 | exact H2].
Defined.

(** ** What addAnimation stores when it goes through *)

Lemma resolve_prefix_length atlas indices ix fs :
  resolve_prefix atlas indices ix = (fs, true) → length fs = length ix.
Proof.
  revert fs. induction ix as [|e rest IH]; intros fs; cbn [resolve_prefix].
  - by intros [= <-].
  - destruct (resolve atlas indices e); [|discriminate].
    destruct (resolve_prefix atlas indices rest) as [fs' ok].
    intros [= <- ->]. cbn. f_equal. by apply IH.
Qed.

(** C6, as the code has it.  With no index list (null or undefined)
    addAnimation stores every frame of the atlas, in atlas order; with an
    empty list it stores an animation of no frame at all; and a call that
    goes through stores one frame slot per entry of the list, so the stored
    animation has a frame only if the list, or failing a list the atlas,
    has an entry. *)
Theorem addAnimation_frames name speed s :
  addAnimation name None speed s
    = (stored name
         (Anim.mk name (map Some (textureAtlas s)) (Int 0)
            (Z.of_nat (length (textureAtlas s)))
            (speed_or speed (animationspeed s)) 0) s, Ret tt)
  ∧ addAnimation name (Some []) speed s
    = (stored name
         (Anim.mk name [] (Int 0) 0 (speed_or speed (animationspeed s)) 0) s,
       Ret tt)
  ∧ ∀ ix, snd (addAnimation name (Some ix) speed s) = Ret tt →
      ∃ a, sequence (fst (addAnimation name (Some ix) speed s)) name = Some a
           ∧ length (Anim.frame a) = length ix
           ∧ Anim.length a = Z.of_nat (length ix).
Proof.
  split; [|split].
  - rewrite addAnimation_at. cbn zeta. rewrite resolve_prefix_default.
    by rewrite length_map.
  - by rewrite addAnimation_at.
  - intros ix. rewrite addAnimation_at. cbn zeta.
    destruct (resolve_prefix _ _ ix) as [fs ok] eqn:Hr.
    destruct ok; [|discriminate]. intros _. cbn [fst].
    eexists. split; [apply sequence_stored|]. cbn.
    by rewrite (resolve_prefix_length _ _ _ _ Hr).
Qed.

Lemma addAnimation_frames_witness :
  ∃ a, sequence (fst (addAnimation "roll" (Some (map INum [7; 8; 9; 10])) (Some 200)
                        demo_sheet)) "roll" = Some a
       ∧ length (Anim.frame a) = 4%nat ∧ Anim.length a = 4.
Proof.
  destruct (addAnimation_frames "roll" (Some 200) demo_sheet) as (_ & _ & H).
  apply (H (map INum [7; 8; 9; 10])). vm_compute. reflexivity.
Defined.

(** C6 as stated fails: an empty index list does not stand for every frame
    of the atlas.  The animation stored has no frame, fewer than the one
    frame every stored sequence is said to have. *)
Lemma addAnimation_empty_list_counterexample :
  let s' := fst (addAnimation "idle" (Some []) None demo_sheet) in
  (Anim.frame <$> sequence s' "idle") = Some []
  ∧ (Anim.frame <$> sequence s' "idle") ≠ Some (map Some (textureAtlas demo_sheet))
  ∧ ¬ (∀ a, sequence s' "idle" = Some a → (1 ≤ length (Anim.frame a))%nat).
Proof.
  cbn zeta. split; [vm_compute; reflexivity|]. split.
  - vm_compute. discriminate.
  - intros H. specialize (H (Anim.mk "idle" [] (Int 0) 0 100 0)).
    assert (Hs : sequence (fst (addAnimation "idle" (Some []) None demo_sheet)) "idle"
                 = Some (Anim.mk "idle" [] (Int 0) 0 100 0))
      by (vm_compute; reflexivity).
    specialize (H Hs). cbn in H. lia.
Qed.

(** ** Well-formed animations *)

Lemma anim_ok_spec a :
  anim_ok a ↔
    Anim.length a = Z.of_nat (length (Anim.frame a))
    ∧ Forall is_Some (Anim.frame a)
    ∧ ∃ i, Anim.idx a = Int i ∧ 0 ≤ i < Anim.length a.
Proof.
  unfold anim_ok, anim_okb. rewrite !andb_true_iff, Z.eqb_eq, forallb_forall.
  rewrite Forall_forall.
  split.
  - intros [[Hl Hf] Hi]. split; [done|]. split.
    + intros x Hx. apply list_elem_of_In, Hf in Hx. by apply bool_decide_eq_true in Hx.
    + destruct (Anim.idx a) as [i|]; [|discriminate].
      apply andb_true_iff in Hi as [H0 H1]. exists i. split; [done|]. lia.
  - intros (Hl & Hf & i & Hi & Hr). split; [split; [done|]|].
    + intros x Hx. apply bool_decide_eq_true, Hf, list_elem_of_In, Hx.
    + rewrite Hi. apply andb_true_iff. lia.
Qed.

Lemma anim_ok_frame a j :
  anim_ok a → 0 ≤ j < Anim.length a →
  ∃ f, array_get (Anim.frame a) (Int j) = Some f.
Proof.
  intros (Hl & Hf & _)%anim_ok_spec Hj. unfold array_get.
  destruct (Z.ltb_spec j 0); [lia|].
  destruct (lookup_lt_is_Some_2 (Anim.frame a) (Z.to_nat j) ltac:(lia)) as [x Hx].
  rewrite Hx. rewrite Forall_forall in Hf.
  destruct (Hf x) as [f ->]; [|by exists f].
  eapply list_elem_of_lookup_2, Hx.
Qed.

Lemma anim_ok_set_nextFrame v a : anim_ok a → anim_ok (Anim.set_nextFrame v a).
Proof. intros H. exact H. Qed.

Lemma anim_ok_set_idx j a :
  anim_ok a → 0 ≤ j < Anim.length a → anim_ok (Anim.set_idx (Int j) a).
Proof.
  intros (Hl & Hf & _)%anim_ok_spec Hj. apply anim_ok_spec.
  split; [done|]. split; [done|]. by exists j.
Qed.

(** ** Ticks that change nothing *)

Section Idle.

Variable callback : nat → Sheet → Sheet * value.

Lemma ticks_fixed dts s :
  (∀ dt, update callback dt s = (s, Ret false)) →
  ticks callback dts s = (s, Ret (replicate (length dts) false)).
Proof.
  intros Hu. induction dts as [|dt rest IH]; [reflexivity|].
  cbn [ticks length replicate]. unfold bind at 1. rewrite Hu.
  unfold bind at 1. by rewrite IH.
Qed.

(** C4.  While [animationpause] is set, or while the current animation has
    exactly one frame, update changes nothing in the sheet and answers
    false, whatever [dt] is and however many times it runs: the frame index
    and the countdown stay as they were, so time spent paused is not kept
    for later, and a one-frame animation stays on its frame. *)
Theorem update_idle dts s :
  (animationpause s = true
   ∨ ∃ l a, active s l a
            ∧ Anim.length a = Z.of_nat (length (Anim.frame a))
            ∧ length (Anim.frame a) = 1%nat) →
  (∀ dt, update callback dt s = (s, Ret false))
  ∧ ticks callback dts s = (s, Ret (replicate (length dts) false))
  ∧ currentIndex (fst (ticks callback dts s)) = currentIndex s
  ∧ remainingMs (fst (ticks callback dts s)) = remainingMs s.
Proof.
  intros H.
  assert (Hu : ∀ dt, update callback dt s = (s, Ret false)).
  { intros dt. destruct H as [Hp | (l & a & Ha & Hl & H1)].
    - by apply update_paused.
    - destruct (animationpause s) eqn:Hp; [by apply update_paused|].
      apply (update_short _ _ _ l a); [done | done | lia]. }
  split; [exact Hu|]. rewrite (ticks_fixed _ _ Hu). by cbn.
Qed.

End Idle.

Lemma update_idle_witness :
  let still :=
    fst ((do _ <- addAnimation "still" (Some [INum 3]) None;
          setCurrentAnimation "still" None) demo_sheet) in
  ticks no_callbacks [100; 250; 1000] still = (still, Ret [false; false; false])
  ∧ currentIndex still = Some (Int 0)
  ∧ ticks always_false [100; 100] (set_animationpause true demo_sheet)
    = (set_animationpause true demo_sheet, Ret [false; false]).
Proof.
  cbn zeta. split; [|split].
  - apply (update_idle no_callbacks [100; 250; 1000]). right.
    exists 3%nat, (Anim.mk "still" [Some (demo_cell 3)] (Int 0) 1 100 100).
    split; [split; vm_compute; reflexivity|]. split; reflexivity.
  - vm_compute. reflexivity.
  - apply (update_idle always_false [100; 100]). left. reflexivity.
Defined.

(** ** The countdown *)

Section Countdown.

Variable callback : nat → Sheet → Sheet * value.

(** A due tick with no completion policy in the way: one frame forward, the
    countdown back to the full duration. *)
Lemma update_advance_plain dt s l a i f :
  active s l a → animationpause s = false → 1 < Anim.length a →
  Anim.nextFrame a - dt ≤ 0 → Anim.idx a = Int i →
  array_get (Anim.frame a) (Int (Z.rem (i + 1) (Anim.length a))) = Some f →
  (Z.rem (i + 1) (Anim.length a) = 0 → resetAnim s = None) →
  update callback dt s =
    (set_geometry f
       (put l (Anim.mk (Anim.name a) (Anim.frame a)
                 (Int (Z.rem (i + 1) (Anim.length a))) (Anim.length a)
                 (Anim.animationspeed a) (Anim.animationspeed a)) s),
     Ret true).
Proof.
  intros H Hp Hlen Hdue Hi Hf Hr.
  rewrite (update_due _ _ _ _ _ H Hp Hlen Hdue).
  set (a1 := Anim.set_nextFrame (Anim.nextFrame a - dt) a).
  pose proof (active_put _ _ _ a1 H) as H1.
  rewrite (advance_at _ _ _ _ _ i f H1 Hi); [| cbn; lia | exact Hf].
  cbn zeta. cbn [Anim.length a1 Anim.set_nextFrame] in *.
  set (j := Z.rem (i + 1) (Anim.length a)) in *.
  rewrite put_put.
  assert (H2 : active (set_geometry f (put l (Anim.set_idx (Int j) a1) s)) l
                 (Anim.set_idx (Int j) a1))
    by apply active_geometry, (active_put _ _ _ _ H).
  assert (Hre : rearm dt (set_geometry f (put l (Anim.set_idx (Int j) a1) s)) =
    (set_geometry f
       (put l (Anim.mk (Anim.name a) (Anim.frame a) (Int j) (Anim.length a)
                 (Anim.animationspeed a) (Anim.animationspeed a)) s), Ret true)).
  { rewrite (rearm_at _ _ _ _ H2). by rewrite put_geometry, put_put. }
  destruct (Z.eqb_spec j 0) as [Hj|Hj]; [|exact Hre].
  change (resetAnim (put l a1 s)) with (resetAnim s). rewrite (Hr Hj). exact Hre.
Qed.

Lemma advances_true bs : advances (true :: bs) = 1 + advances bs.
Proof.
  unfold advances. rewrite filter_cons_True by done.
  rewrite length_cons. lia.
Qed.

Lemma advances_false bs : advances (false :: bs) = advances bs.
Proof. unfold advances. by rewrite filter_cons_False by done. Qed.

Lemma ticks_reset dts : ∀ s l a i,
  active s l a → anim_ok a → 1 < Anim.length a →
  animationpause s = false → resetAnim s = None → Anim.idx a = Int i →
  ∃ s', ticks callback dts s
          = (s', Ret (reset_ticks (Anim.animationspeed a) (Anim.nextFrame a) dts))
        ∧ active s' l
            (Anim.mk (Anim.name a) (Anim.frame a)
               (Int ((i + advances (reset_ticks (Anim.animationspeed a)
                                      (Anim.nextFrame a) dts))
                     mod Anim.length a))
               (Anim.length a) (Anim.animationspeed a)
               (reset_left (Anim.animationspeed a) (Anim.nextFrame a) dts)).
Proof.
  induction dts as [|dt rest IH]; intros s l a i H Hok Hlen Hp Hr Hi.
  - exists s. split; [reflexivity|]. cbn [reset_ticks reset_left].
    apply anim_ok_spec in Hok as (_ & _ & i' & Hi' & Hrange).
    rewrite Hi in Hi'. injection Hi' as <-.
    unfold advances. cbn. rewrite Z.add_0_r, Z.mod_small by lia.
    rewrite <- Hi. by destruct a.
  - cbn [ticks reset_ticks reset_left]. unfold bind at 1.
    pose proof Hok as (_ & _ & i' & Hi' & Hrange)%anim_ok_spec.
    rewrite Hi in Hi'. injection Hi' as <-.
    destruct (Z.leb_spec (Anim.nextFrame a - dt) 0) as [Hdue|Hwait].
    + assert (Hj : 0 ≤ Z.rem (i + 1) (Anim.length a) < Anim.length a)
        by (rewrite Z.rem_mod_nonneg by lia; apply Z.mod_pos_bound; lia).
      destruct (anim_ok_frame a _ Hok Hj) as [f Hf].
      rewrite (update_advance_plain _ _ _ _ _ _ H Hp Hlen Hdue Hi Hf (fun _ => Hr)).
      set (a' := Anim.mk _ _ _ _ _ _).
      destruct (IH (set_geometry f (put l a' s)) l a' (Z.rem (i + 1) (Anim.length a)))
        as (s' & Ht & Ha'); try done.
      { apply active_geometry, (active_put _ _ _ _ H). }
      { apply (anim_ok_set_idx _ (Anim.set_nextFrame (Anim.animationspeed a) a));
          [by apply anim_ok_set_nextFrame | done]. }
      exists s'. unfold bind at 1. rewrite Ht. split; [reflexivity|].
      cbn [a' Anim.name Anim.frame Anim.length Anim.animationspeed Anim.nextFrame] in Ha'.
      rewrite advances_true.
      rewrite Z.rem_mod_nonneg, Z.add_mod_idemp_l in Ha' by lia.
      by replace (i + (1 + advances (reset_ticks (Anim.animationspeed a)
                    (Anim.animationspeed a) rest)))
        with (i + 1 + advances (reset_ticks (Anim.animationspeed a)
                    (Anim.animationspeed a) rest)) by lia.
    + rewrite (update_wait _ _ _ _ _ H Hp Hlen Hwait).
      set (a' := Anim.set_nextFrame _ a).
      destruct (IH (put l a' s) l a' i) as (s' & Ht & Ha'); try done.
      { apply (active_put _ _ _ _ H). }
      exists s'. unfold bind at 1. rewrite Ht. split; [reflexivity|].
      by rewrite advances_false.
Qed.

(** C1, as the code has it.  On a sheet that is not paused, with a
    well-formed current animation of more than one frame, frame duration [D]
    and countdown [r]: a tick that leaves the countdown positive answers
    false and only lowers it; a tick that brings it to zero or below, when
    it does not wrap onto a completion policy, answers true, moves the frame
    index forward by exactly one (wrapping at the end) however large [dt]
    is, and sets the countdown back to exactly [D].  What the tick overshot
    by is dropped, not carried into the next frame's countdown: with no
    completion policy a run of ticks answers as [reset_ticks] says. *)
Theorem ticks_reset_countdown s l a i :
  active s l a → anim_ok a → 1 < Anim.length a →
  animationpause s = false → Anim.idx a = Int i →
  (∀ dt, 0 < Anim.nextFrame a - dt →
     snd (update callback dt s) = Ret false
     ∧ currentIndex (fst (update callback dt s)) = Some (Int i)
     ∧ remainingMs (fst (update callback dt s)) = Some (Anim.nextFrame a - dt))
  ∧ (∀ dt, Anim.nextFrame a - dt ≤ 0 →
       ((i + 1) mod Anim.length a = 0 → resetAnim s = None) →
       snd (update callback dt s) = Ret true
       ∧ currentIndex (fst (update callback dt s))
         = Some (Int ((i + 1) mod Anim.length a))
       ∧ remainingMs (fst (update callback dt s)) = Some (Anim.animationspeed a))
  ∧ (resetAnim s = None → ∀ dts,
       let bs := reset_ticks (Anim.animationspeed a) (Anim.nextFrame a) dts in
       snd (ticks callback dts s) = Ret bs
       ∧ currentIndex (fst (ticks callback dts s))
         = Some (Int ((i + advances bs) mod Anim.length a))
       ∧ remainingMs (fst (ticks callback dts s))
         = Some (reset_left (Anim.animationspeed a) (Anim.nextFrame a) dts)).
Proof.
  intros H Hok Hlen Hp Hi.
  pose proof Hok as (_ & _ & i' & Hi' & Hrange)%anim_ok_spec.
  rewrite Hi in Hi'. injection Hi' as <-.
  unfold currentIndex, remainingMs.
  split; [|split].
  - intros dt Hwait. rewrite (update_wait _ _ _ _ _ H Hp Hlen Hwait). cbn [fst snd].
    rewrite (active_cur_anim _ _ _ (active_put _ _ _ _ H)). cbn. by rewrite Hi.
  - intros dt Hdue Hwrap.
    assert (Hj : 0 ≤ Z.rem (i + 1) (Anim.length a) < Anim.length a)
      by (rewrite Z.rem_mod_nonneg by lia; apply Z.mod_pos_bound; lia).
    destruct (anim_ok_frame a _ Hok Hj) as [f Hf].
    rewrite (update_advance_plain _ _ _ _ _ f H Hp Hlen Hdue Hi Hf);
      [| by rewrite Z.rem_mod_nonneg by lia ].
    cbn [fst snd].
    rewrite (active_cur_anim _ _ _ (active_geometry _ _ _ f (active_put _ _ _ _ H))).
    cbn. by rewrite Z.rem_mod_nonneg by lia.
  - intros Hr dts. cbn zeta.
    destruct (ticks_reset dts s l a i H Hok Hlen Hp Hr Hi) as (s' & Ht & Ha').
    rewrite Ht. cbn [fst snd]. split; [done|].
    by rewrite (active_cur_anim _ _ _ Ha').
Qed.

End Countdown.

Lemma ticks_reset_countdown_witness :
  (snd (update no_callbacks 250 demo_sheet) = Ret true
   ∧ currentIndex (fst (update no_callbacks 250 demo_sheet)) = Some (Int 1)
   ∧ remainingMs (fst (update no_callbacks 250 demo_sheet)) = Some 100)
  ∧ snd (ticks no_callbacks [100; 50; 50; 150; 50; 50] demo_sheet)
    = Ret [true; false; true; true; false; true]
  ∧ currentIndex (fst (ticks no_callbacks [100; 50; 50; 150; 50; 50] demo_sheet))
    = Some (Int 4)
  ∧ remainingMs (fst (ticks no_callbacks [100; 50; 50; 150; 50; 50] demo_sheet))
    = Some 100.
Proof.
  destruct (ticks_reset_countdown no_callbacks demo_sheet 1%nat
              (Anim.mk "walk" (map Some (take 6 demo_cells)) (Int 0) 6 100 100) 0)
    as (_ & Hdue & Hrun).
  - split; vm_compute; reflexivity.
  - vm_compute. reflexivity.
  - cbn. lia.
  - reflexivity.
  - reflexivity.
  - split.
    + apply (Hdue 250); [cbn; lia|]. intros Hwrap. vm_compute in Hwrap. discriminate.
    + apply (Hrun eq_refl [100; 50; 50; 150; 50; 50]).
Defined.

(** C1 as stated fails on the carried remainder.  From the walk animation
    (duration 100, countdown 100) a tick of 150 followed by a tick of 50
    makes 200 elapsed, two full durations; with the remainder carried the
    second tick would advance too, but the code answers true then false: the
    tick of 150 left the countdown at 100, not at 50. *)
Lemma remainder_carried_counterexample :
  snd (ticks no_callbacks [150; 50] demo_sheet) = Ret [true; false]
  ∧ carry_ticks 100 100 [150; 50] = [true; true]
  ∧ remainingMs demo_sheet = Some 100
  ∧ remainingMs (fst (update no_callbacks 150 demo_sheet)) = Some 100
  ∧ remainingMs (fst (update no_callbacks 150 demo_sheet)) ≠ Some (100 + (100 - 150)).
Proof.
  split; [vm_compute; reflexivity|]. split; [reflexivity|].
  split; [vm_compute; reflexivity|]. split; [vm_compute; reflexivity|].
  vm_compute. discriminate.
Qed.

(** ** Switching the current animation *)

Lemma set_idx_same a i : Anim.idx a = Int i → Anim.set_idx (Int i) a = a.
Proof. intros H. destruct a. cbn in *. by subst. Qed.

Lemma setCurrentAnimation_ok_at name r s l a :
  anim s !! name = Some l → heap s !! l = Some a → anim_ok a →
  ∃ f, array_get (Anim.frame a) (Anim.idx a) = Some f
       ∧ setCurrentAnimation name r s =
           (set_geometry f
              (put l (Anim.set_nextFrame (Anim.animationspeed a) a)
                 (set_resetAnim (or_null r) (set_current (Some l) s))), Ret tt).
Proof.
  intros Hn Hh Hok.
  pose proof Hok as (_ & _ & i & Hi & Hr)%anim_ok_spec.
  destruct (anim_ok_frame a i Hok Hr) as [f Hf].
  exists f. rewrite Hi. split; [done|].
  rewrite (setCurrentAnimation_at _ _ _ _ _ Hn Hh). cbn zeta.
  rewrite Hi. cbn [or_zero js_rem].
  destruct (Z.eqb_spec (Anim.length a) 0); [lia|].
  rewrite Z.rem_small by lia. rewrite (set_idx_same _ _ Hi), Hi, Hf. done.
Qed.

(** C2, at an input where the code breaks it.  setCurrentAnimation passes
    the animation's own stored [idx] to setAnimationFrame, so an animation
    that was left on frame 1 comes back on frame 1, not on frame 0, whether
    it is set directly or reached through a chain at the end of another
    animation.  The animation does become the current one and its countdown
    is set to its frame duration. *)
Theorem setCurrentAnimation_keeps_stored_cursor :
  let s1 := fst (update no_callbacks 100 demo_sheet) in
  let s2 := fst (setCurrentAnimation "eat" None s1) in
  let s3 := fst (setCurrentAnimation "walk" None s2) in
  let s4 := fst (ticks no_callbacks [100; 100]
                   (fst (setCurrentAnimation "eat" (Some (Chain "walk")) s1))) in
  (activeName s1 = Some "walk" ∧ currentIndex s1 = Some (Int 1))
  ∧ (activeName s2 = Some "eat" ∧ currentIndex s2 = Some (Int 0))
  ∧ (snd (setCurrentAnimation "walk" None s2) = Ret tt
     ∧ activeName s3 = Some "walk" ∧ remainingMs s3 = Some 100
     ∧ currentIndex s3 = Some (Int 1))
  ∧ (activeName s4 = Some "walk" ∧ currentIndex s4 = Some (Int 1)).
Proof. vm_compute. repeat split. Qed.

(** ** Well-formed sheets stay well formed *)

Lemma stored_ok_spec s l :
  stored_okb s l = true ↔ ∃ a, heap s !! l = Some a ∧ anim_ok a.
Proof.
  unfold stored_okb. destruct (heap s !! l) as [a|].
  - split; [intros H; by exists a | by intros (? & [= <-] & ?)].
  - split; [discriminate | by intros (? & ? & _)].
Qed.

Lemma sheet_ok_spec s :
  sheet_ok s ↔
    (∃ l a, active s l a ∧ anim_ok a)
    ∧ (∀ n l, anim s !! n = Some l → ∃ a, heap s !! l = Some a ∧ anim_ok a)
    ∧ policy_okb s (resetAnim s) = true.
Proof.
  unfold sheet_ok, sheet_okb. rewrite !andb_true_iff, !forallb_forall.
  split.
  - intros [[Hc Hn] Hr]. split; [|split; [|done]].
    + destruct (current s) as [l|] eqn:Hcur; [|discriminate].
      apply stored_ok_spec in Hc as (a & Ha & Hok). by exists l, a.
    + intros n l Hl. apply stored_ok_spec.
      by apply elem_of_map_to_list, list_elem_of_In, Hn in Hl.
  - intros ((l & a & [Hc Ha] & Hok) & Hn & Hr). split; [split|done].
    + rewrite Hc. apply stored_ok_spec. by exists a.
    + intros [n l'] Hl'. apply stored_ok_spec, (Hn n).
      by apply elem_of_map_to_list, list_elem_of_In.
Qed.


















Section Invariant.

Variable callback : nat → Sheet → Sheet * value.
Hypothesis callback_ok : ∀ g s, sheet_ok s → sheet_ok (fst (callback g s)).





End Invariant.




(** ** Methods that call no callback *)

Lemma silent_ret {A} (a : A) : silent (ret a).
Proof. by intros s. Qed.

Lemma silent_throw {A} e : silent (@throw A e).
Proof. by intros s. Qed.

Lemma silent_bind {A B} (m : M A) (k : A → M B) :
  silent m → (∀ a, silent (k a)) → silent (bind m k).
Proof.
  intros Hm Hk s. unfold bind. specialize (Hm s).
  destruct (m s) as [s1 [a|e]]; cbn [fst] in *; [|done].
  by rewrite Hk.
Qed.

Lemma silent_load_current : silent load_current.
Proof.
  intros s. unfold load_current.
  destruct (current s) as [l|]; [|done]. by destruct (heap s !! l).
Qed.

Lemma silent_store_current f : silent (store_current f).
Proof.
  intros s. unfold store_current.
  destruct (current s) as [l|]; [|done]. by destruct (heap s !! l).
Qed.

Lemma silent_on_current {A} (on_anim : M A) on_host :
  silent on_anim → (∀ k h, silent (on_host k h)) → silent (on_current on_anim on_host).
Proof.
  intros Ha Hh s. unfold on_current.
  destruct (host_current s) as [[k h]|]; [apply Hh | apply Ha].
Qed.

Lemma silent_store_host k h : silent (store_host k h).
Proof. by intros s. Qed.

Lemma silent_setAnimationFrame idx : silent (setAnimationFrame idx).
Proof.
  unfold setAnimationFrame. apply silent_on_current.
  - apply silent_bind; [apply silent_load_current | intros cur].
    apply silent_bind; [apply silent_store_current | intros _].
    apply silent_bind; [apply silent_load_current | intros cur'].
    destruct (array_get _ _); [by intros s | apply silent_throw].
  - intros k h. apply silent_bind; [apply silent_store_host | intros _].
    apply silent_throw.
Qed.

Lemma silent_rearm dt : silent (rearm dt).
Proof.
  unfold rearm, sprite_update.
  apply silent_bind; [apply silent_on_current | intros _].
  - apply silent_bind; [apply silent_load_current | intros cur].
    apply silent_store_current.
  - intros k h. apply silent_store_host.
  - apply silent_bind; [apply silent_ret | intros b]. apply silent_ret.
Qed.

Lemma silent_hold dt : silent (hold dt).
Proof.
  unfold hold, sprite_update.
  apply silent_bind; [apply silent_on_current | intros _].
  - apply silent_bind; [apply silent_load_current | intros cur].
    apply silent_bind; [apply silent_store_current | intros _].
    apply silent_bind; [apply silent_load_current | intros cur'].
    apply silent_setAnimationFrame.
  - intros k h. cbn zeta.
    apply silent_bind; [apply silent_store_host | intros _].
    apply silent_setAnimationFrame.
  - apply silent_bind; [apply silent_ret | intros b]. apply silent_ret.
Qed.

(** ** The callback at the wrap *)

Section Wrap.

Variable callback : nat → Sheet → Sheet * value.
Variable g : nat.

(** A due tick on the last frame, with a callback as completion policy:
    the index wraps to 0, then the callback runs. *)
Lemma update_wrap_call dt s l a f0 :
  active s l a → animationpause s = false → 1 < Anim.length a →
  resetAnim s = Some (Callback g) →
  Anim.idx a = Int (Anim.length a - 1) → Anim.nextFrame a - dt ≤ 0 →
  array_get (Anim.frame a) (Int 0) = Some f0 →
  update callback dt s =
    bind (call callback g)
      (fun v => if strict_false v then hold dt else rearm dt)
      (set_geometry f0
         (put l (Anim.mk (Anim.name a) (Anim.frame a) (Int 0) (Anim.length a)
                   (Anim.animationspeed a) (Anim.nextFrame a - dt)) s)).
Proof.
  intros H Hp Hlen Hr Hi Hdue Hf.
  rewrite (update_due _ _ _ _ _ H Hp Hlen Hdue).
  set (a1 := Anim.set_nextFrame (Anim.nextFrame a - dt) a).
  pose proof (active_put _ _ _ a1 H) as H1.
  assert (Hrem : Z.rem (Anim.length a - 1 + 1) (Anim.length a) = 0)
    by (rewrite Z.sub_add; apply Z.rem_same; lia).
  rewrite (advance_at _ _ _ _ _ (Anim.length a - 1) f0 H1 Hi);
    [| cbn; lia | cbn [a1 Anim.length Anim.frame Anim.set_nextFrame]; by rewrite Hrem ].
  cbn zeta. cbn [a1 Anim.length Anim.set_nextFrame]. rewrite Hrem. cbn [Z.eqb].
  change (resetAnim (put l a1 s)) with (resetAnim s). rewrite Hr.
  by rewrite put_put.
Qed.

(** Whatever the callback does and answers, that tick calls it once. *)
Lemma update_wrap_calls_once dt s l a :
  active s l a → anim_ok a → animationpause s = false → 1 < Anim.length a →
  resetAnim s = Some (Callback g) →
  Anim.idx a = Int (Anim.length a - 1) → Anim.nextFrame a - dt ≤ 0 →
  cb_calls (fst (update callback dt s)) = S (cb_calls s).
Proof.
  intros H Hok Hp Hlen Hr Hi Hdue.
  destruct (anim_ok_frame a 0 Hok ltac:(lia)) as [f0 Hf].
  rewrite (update_wrap_call _ _ _ _ f0 H Hp Hlen Hr Hi Hdue Hf).
  unfold bind, call. cbn [cb_calls set_geometry put set_heap].
  destruct (callback g _) as [s2 v].
  destruct (strict_false v); [rewrite silent_hold | rewrite silent_rearm]; done.
Qed.

Hypothesis answers_false : ∀ s, callback g s = (s, VBool false).

(** With a callback that answers false and leaves the sheet alone, that
    tick ends on the last frame with the countdown not re-armed. *)
Lemma update_hold_step dt s l a :
  active s l a → anim_ok a → animationpause s = false → 1 < Anim.length a →
  resetAnim s = Some (Callback g) →
  Anim.idx a = Int (Anim.length a - 1) → Anim.nextFrame a - dt ≤ 0 →
  ∃ s' f,
    update callback dt s = (s', Ret false)
    ∧ array_get (Anim.frame a) (Int (Anim.length a - 1)) = Some f
    ∧ geometry s' = f
    ∧ active s' l (Anim.mk (Anim.name a) (Anim.frame a) (Int (Anim.length a - 1))
                     (Anim.length a) (Anim.animationspeed a) (Anim.nextFrame a - dt))
    ∧ animationpause s' = false
    ∧ resetAnim s' = Some (Callback g)
    ∧ cb_calls s' = S (cb_calls s).
Proof.
  intros H Hok Hp Hlen Hr Hi Hdue.
  destruct (anim_ok_frame a 0 Hok ltac:(lia)) as [f0 Hf0].
  destruct (anim_ok_frame a (Anim.length a - 1) Hok ltac:(lia)) as [f Hf].
  rewrite (update_wrap_call _ _ _ _ f0 H Hp Hlen Hr Hi Hdue Hf0).
  set (a0 := Anim.mk _ _ (Int 0) _ _ _).
  unfold bind, call. rewrite answers_false. cbn [strict_false].
  set (s1 := set_cb_calls _ _).
  assert (H1 : active s1 l a0)
    by (split; [apply H | apply heap_put; eapply lookup_lt_Some, H]).
  rewrite (hold_at _ _ _ _ f H1); [| cbn; lia | exact Hf].
  eexists _, f. split; [reflexivity|]. split; [done|].
  split; [by destruct f|].
  split; [|done].
  apply active_geometry. cbn [a0 Anim.length Anim.set_idx Anim.name Anim.frame
    Anim.idx Anim.animationspeed Anim.nextFrame].
  split; [apply H|]. cbn. rewrite list_insert_insert_eq.
  apply list_lookup_insert_eq. eapply lookup_lt_Some, H.
Qed.

Lemma update_enters_hold dt s l a :
  active s l a → anim_ok a → animationpause s = false → 1 < Anim.length a →
  resetAnim s = Some (Callback g) →
  Anim.idx a = Int (Anim.length a - 1) → Anim.nextFrame a - dt ≤ 0 →
  held g (fst (update callback dt s)).
Proof.
  intros H Hok Hp Hlen Hr Hi Hdue.
  destruct (update_hold_step dt s l a H Hok Hp Hlen Hr Hi Hdue)
    as (s1 & f & -> & _ & _ & H1 & Hp1 & Hr1 & _).
  cbn [fst]. split; [done|]. split; [done|]. eexists l, _. split; [exact H1|].
  split; [|by repeat split].
  apply (anim_ok_set_idx _ (Anim.set_nextFrame (Anim.nextFrame a - dt) a));
    [by apply anim_ok_set_nextFrame | cbn; lia].
Qed.

(** From then on every tick that does not run time backwards does the same:
    the countdown is still run out, the index wraps again, the callback is
    called again and the sheet is put back on the last frame. *)
Lemma ticks_held dts : ∀ s l a,
  active s l a → anim_ok a → animationpause s = false → 1 < Anim.length a →
  resetAnim s = Some (Callback g) →
  Anim.idx a = Int (Anim.length a - 1) → Anim.nextFrame a ≤ 0 →
  Forall (fun d => 0 ≤ d) dts →
  ∃ s' r,
    ticks callback dts s = (s', Ret (replicate (length dts) false))
    ∧ active s' l (Anim.mk (Anim.name a) (Anim.frame a) (Int (Anim.length a - 1))
                     (Anim.length a) (Anim.animationspeed a) r)
    ∧ r ≤ 0
    ∧ animationpause s' = false
    ∧ resetAnim s' = Some (Callback g)
    ∧ cb_calls s' = (cb_calls s + length dts)%nat.
Proof.
  induction dts as [|dt rest IH]; intros s l a H Hok Hp Hlen Hr Hi Hnf Hdts.
  - exists s, (Anim.nextFrame a). split; [done|].
    split; [rewrite <- Hi; by destruct a|]. cbn [length]. by rewrite Nat.add_0_r.
  - apply Forall_cons in Hdts as [Hdt Hrest]. cbn beta in Hdt.
    destruct (update_hold_step dt s l a H Hok Hp Hlen Hr Hi ltac:(lia))
      as (s1 & f & Hu & _ & _ & H1 & Hp1 & Hr1 & Hc1).
    set (a1 := Anim.mk _ _ _ _ _ _) in H1.
    destruct (IH s1 l a1 H1) as (s' & r & Ht & H' & Hr' & Hp' & Hra' & Hc');
      try done.
    { apply (anim_ok_set_idx _ (Anim.set_nextFrame (Anim.nextFrame a - dt) a));
        [by apply anim_ok_set_nextFrame | cbn; lia]. }
    { cbn. lia. }
    exists s', r. cbn [ticks length replicate]. unfold bind at 1. rewrite Hu.
    unfold bind at 1. rewrite Ht. split; [done|]. split; [exact H'|].
    split; [done|]. split; [done|]. split; [done|]. rewrite Hc', Hc1. lia.
Qed.

End Wrap.

(** C5, as the code has it.  With a completion callback that answers false
    every time it is called, and leaves the sheet alone, on a well-formed
    animation of more than one frame: the due tick on the last frame wraps,
    calls the callback, puts the frame index back on the last frame with
    that frame's geometry, answers false and does not re-arm the countdown;
    and as long as no other animation is set, every later tick of a sheet
    that is not paused, with a [dt] that is not negative, answers false and
    leaves the frame index on the last frame. *)
Theorem hold_on_last_frame callback g dt dts s l a :
  (∀ s0, callback g s0 = (s0, VBool false)) →
  active s l a → anim_ok a → animationpause s = false → 1 < Anim.length a →
  resetAnim s = Some (Callback g) →
  Anim.idx a = Int (Anim.length a - 1) → Anim.nextFrame a - dt ≤ 0 →
  Forall (fun d => 0 ≤ d) dts →
  let s1 := fst (update callback dt s) in
  let s2 := fst (ticks callback dts s1) in
  snd (update callback dt s) = Ret false
  ∧ currentIndex s1 = Some (Int (Anim.length a - 1))
  ∧ Some (geometry s1) = array_get (Anim.frame a) (Int (Anim.length a - 1))
  ∧ remainingMs s1 = Some (Anim.nextFrame a - dt)
  ∧ held g s1
  ∧ snd (ticks callback dts s1) = Ret (replicate (length dts) false)
  ∧ currentIndex s2 = Some (Int (Anim.length a - 1))
  ∧ activeName s2 = Some (Anim.name a).
Proof.
  intros Hcb H Hok Hp Hlen Hr Hi Hdue Hdts. cbn zeta.
  destruct (update_hold_step callback g Hcb dt s l a H Hok Hp Hlen Hr Hi Hdue)
    as (s1 & f & Hu & Hf & Hg & H1 & Hp1 & Hr1 & _).
  rewrite Hu. cbn [fst snd].
  set (a1 := Anim.mk _ _ _ _ _ _) in H1.
  assert (Hok1 : anim_ok a1).
  { apply (anim_ok_set_idx _ (Anim.set_nextFrame (Anim.nextFrame a - dt) a));
      [by apply anim_ok_set_nextFrame | cbn; lia]. }
  destruct (ticks_held callback g Hcb dts s1 l a1 H1 Hok1 Hp1 Hlen Hr1 eq_refl Hdue Hdts)
    as (s2 & r & Ht & H2 & _ & _ & _ & _).
  rewrite Ht. cbn [fst snd].
  unfold currentIndex, remainingMs, activeName.
  rewrite (active_cur_anim _ _ _ H1), (active_cur_anim _ _ _ H2).
  split; [done|]. split; [done|]. split; [by rewrite Hg, Hf|]. split; [done|].
  split; [|done].
  pose proof (update_enters_hold callback g Hcb dt s l a H Hok Hp Hlen Hr Hi Hdue)
    as Hheld.
  by rewrite Hu in Hheld.
Qed.

Lemma hold_on_last_frame_witness :
  let s := fst (update always_false 100
                  (fst (setCurrentAnimation "eat" (Some (Callback 0)) demo_sheet))) in
  let s1 := fst (update always_false 100 s) in
  currentIndex s = Some (Int 1)
  ∧ snd (update always_false 100 s) = Ret false
  ∧ currentIndex s1 = Some (Int 1)
  ∧ remainingMs s1 = Some 0
  ∧ snd (ticks always_false [10; 0; 500] s1) = Ret [false; false; false]
  ∧ currentIndex (fst (ticks always_false [10; 0; 500] s1)) = Some (Int 1).
Proof.
  cbn zeta. split; [vm_compute; reflexivity|].
  destruct (hold_on_last_frame always_false 0 100 [10; 0; 500]
              (fst (update always_false 100
                      (fst (setCurrentAnimation "eat" (Some (Callback 0)) demo_sheet))))
              2%nat
              (Anim.mk "eat" [Some (demo_cell 6); Some (demo_cell 6)] (Int 1) 2 100 100))
    as (H1 & H2 & _ & H4 & _ & H6 & H7 & _).
  - intros s0. reflexivity.
  - split; vm_compute; reflexivity.
  - vm_compute. reflexivity.
  - vm_compute. reflexivity.
  - cbn. lia.
  - vm_compute. reflexivity.
  - reflexivity.
  - cbn. lia.
  - repeat constructor; lia.
  - repeat split; assumption.
Defined.

(** C5 as stated fails when the callback changes its answer.  The callback
    is called again on every tick after the hold, so one that answers false
    at the first wrap and true afterwards ends the hold on the next tick:
    with the eat animation (two frames) the second tick holds on frame 1 and
    answers false, and the third, with no other animation set and the sheet
    not paused, answers true and leaves the frame index at 0. *)
Lemma hold_released_counterexample :
  let s := fst (setCurrentAnimation "eat" (Some (Callback 0)) demo_sheet) in
  let s2 := fst (ticks false_once [100; 100] s) in
  let s3 := fst (update false_once 10 s2) in
  snd (ticks false_once [100; 100] s) = Ret [true; false]
  ∧ currentIndex s2 = Some (Int 1)
  ∧ animationpause s2 = false
  ∧ snd (update false_once 10 s2) = Ret true
  ∧ activeName s3 = Some "eat"
  ∧ currentIndex s3 = Some (Int 0).
Proof. vm_compute. repeat split. Qed.

(** C10.  Once the sheet is held on the last frame by a callback that
    answered false, every later tick of the sheet, not paused, with a [dt]
    that is not negative, calls the callback again: the countdown is still
    run out, so the tick advances from the last frame to index 0, and what
    the tick leaves and answers is what the callback, applied to the sheet
    wrapped to frame 0, leaves and answers, followed by the hold when that
    answer is false and by the re-arming otherwise.  The callback runs once
    in that tick.  While it keeps answering false the sheet stays held, so
    [n] ticks make [n] calls: one per tick, not one per cycle of the
    animation. *)
Theorem held_calls_back_every_tick callback g s :
  held g s →
  (∀ dt, 0 ≤ dt →
     ∃ l a f0,
       active s l a ∧ array_get (Anim.frame a) (Int 0) = Some f0
       ∧ let wrapped :=
           set_geometry f0
             (put l (Anim.mk (Anim.name a) (Anim.frame a) (Int 0) (Anim.length a)
                       (Anim.animationspeed a) (Anim.nextFrame a - dt)) s) in
         update callback dt s
         = (if strict_false (snd (callback g wrapped)) then hold dt else rearm dt)
             (set_cb_calls (S (cb_calls s)) (fst (callback g wrapped)))
         ∧ cb_calls (fst (update callback dt s)) = S (cb_calls s))
  ∧ ((∀ s0, callback g s0 = (s0, VBool false)) →
     ∀ dts, Forall (fun d => 0 ≤ d) dts →
       snd (ticks callback dts s) = Ret (replicate (length dts) false)
       ∧ cb_calls (fst (ticks callback dts s)) = (cb_calls s + length dts)%nat
       ∧ held g (fst (ticks callback dts s))).
Proof.
  intros (Hp & Hr & l & a & H & Hok & Hlen & Hi & Hnf). split.
  - intros dt Hdt.
    destruct (anim_ok_frame a 0 Hok ltac:(lia)) as [f0 Hf0].
    exists l, a, f0. split; [done|]. split; [done|]. cbn zeta. split.
    + rewrite (update_wrap_call callback g dt s l a f0 H Hp Hlen Hr Hi ltac:(lia) Hf0).
      unfold bind, call. cbn [cb_calls set_geometry put set_heap].
      by destruct (callback g _) as [s2 v].
    + apply (update_wrap_calls_once callback g dt s l a); try done. lia.
  - intros Hcb dts Hdts.
    destruct (ticks_held callback g Hcb dts s l a H Hok Hp Hlen Hr Hi Hnf Hdts)
      as (s' & r & Ht & H' & Hr' & Hp' & Hra' & Hc').
    rewrite Ht. cbn [fst snd]. split; [done|]. split; [done|].
    split; [done|]. split; [done|].
    eexists l, _. split; [exact H'|]. cbn.
    split; [|by repeat split].
    apply (anim_ok_set_idx _ (Anim.set_nextFrame r a));
      [by apply anim_ok_set_nextFrame | cbn; lia].
Qed.

Lemma held_calls_back_every_tick_witness :
  let s := fst (ticks always_false [100; 100]
                  (fst (setCurrentAnimation "eat" (Some (Callback 0)) demo_sheet))) in
  cb_calls s = 1%nat
  ∧ (∃ wrapped,
       currentIndex wrapped = Some (Int 0)
       ∧ update false_once 16 s
         = (if strict_false (snd (false_once 0 wrapped)) then hold 16 else rearm 16)
             (set_cb_calls (S (cb_calls s)) (fst (false_once 0 wrapped))))
  ∧ snd (update false_once 16 s) = Ret true
  ∧ snd (ticks always_false [16; 16; 16; 16] s) = Ret [false; false; false; false]
  ∧ cb_calls (fst (ticks always_false [16; 16; 16; 16] s)) = (cb_calls s + 4)%nat.
Proof.
  cbn zeta. split; [vm_compute; reflexivity|].
  assert (Hheld : held 0 (fst (ticks always_false [100; 100]
            (fst (setCurrentAnimation "eat" (Some (Callback 0)) demo_sheet))))).
  { split; [vm_compute; reflexivity|]. split; [vm_compute; reflexivity|].
    exists 2%nat,
      (Anim.mk "eat" [Some (demo_cell 6); Some (demo_cell 6)] (Int 1) 2 100 0).
    split; [split; vm_compute; reflexivity|].
    split; [vm_compute; reflexivity|].
    split; [cbn; lia|]. split; [reflexivity|]. cbn; lia. }
  split; [|split].
  - destruct (held_calls_back_every_tick false_once 0 _ Hheld) as [Hone _].
    destruct (Hone 16) as (l & a & f0 & Ha & Hf0 & Hu & _); [lia|].
    match type of Hu with
    | _ = (if strict_false (snd (false_once 0 ?w)) then _ else _) _ => exists w
    end.
    split; [|exact Hu].
    unfold currentIndex.
    rewrite (active_cur_anim _ _ _ (active_geometry _ _ _ f0 (active_put _ _ _ _ Ha))).
    reflexivity.
  - vm_compute. reflexivity.
  - destruct (held_calls_back_every_tick always_false 0 _ Hheld) as [_ Hall].
    destruct (Hall (fun s0 => eq_refl) [16; 16; 16; 16]) as (H1 & H2 & _).
    + repeat constructor; lia.
    + by split.
Defined.

(** * Further properties of the sheet *)

(** ** Setting the frame twice, reading it back *)

Lemma setAnimationFrame_no_current idx s :
  cur_anim s = None → host_current s = None →
  setAnimationFrame idx s = (s, Throw TypeError).
Proof.
  unfold cur_anim, setAnimationFrame, on_current, bind, load_current.
  intros Hc ->. destruct (current s) as [l|]; [|done]. cbn in Hc. by rewrite Hc.
Qed.

(** On an inherited value setAnimationFrame writes the [idx] and throws. *)
Lemma setAnimationFrame_host idx s k h :
  host_current s = Some (k, h) →
  setAnimationFrame idx s =
    (set_inherited
       (<[k := Host.set_idx (js_rem (or_zero idx) (Host.length_number h)) h]>
          (inherited s)) s,
     Throw TypeError).
Proof. intros H. unfold setAnimationFrame, on_current. by rewrite H. Qed.

Lemma host_current_stored s k h h' :
  host_current s = Some (k, h) →
  host_current (set_inherited (<[k := h']> (inherited s)) s) = Some (k, h').
Proof.
  unfold host_current. cbn [current current_inherited inherited set_inherited].
  destruct (current s); [done|]. destruct (current_inherited s) as [k'|]; [|done].
  destruct (inherited s !! k') as [h0|] eqn:Hk; [|done]. cbn. intros [= -> ->].
  by rewrite lookup_insert_eq.
Qed.

Lemma cur_anim_active s a : cur_anim s = Some a → ∃ l, active s l a.
Proof.
  unfold cur_anim. destruct (current s) as [l|] eqn:Hc; [|done].
  cbn. intros Hh. by exists l.
Qed.

(** X1.  setAnimationFrame is idempotent, on every sheet and for every
    argument, also when it throws: a second call with the same argument
    changes nothing more and answers the same.  And
    getCurrentAnimationFrame then reads back the remainder of the argument
    (0 when absent) by the number of frames, leaving the sheet alone. *)
Theorem setAnimationFrame_twice idx s :
  setAnimationFrame idx (fst (setAnimationFrame idx s)) = setAnimationFrame idx s
  ∧ ∀ a, cur_anim s = Some a →
      getCurrentAnimationFrame (fst (setAnimationFrame idx s))
      = (fst (setAnimationFrame idx s),
         Ret (js_rem (or_zero idx) (Int (Anim.length a)))).
Proof.
  split.
  - destruct (cur_anim s) as [a|] eqn:Hc.
    + destruct (cur_anim_active _ _ Hc) as [l H].
      rewrite (setAnimationFrame_at _ _ _ _ H). cbn zeta.
      set (a' := Anim.set_idx _ a).
      destruct (array_get (Anim.frame a) (Anim.idx a')) as [f|] eqn:Hf; cbn [fst].
      * pose proof (active_geometry _ _ _ f (active_put _ _ _ a' H)) as H1.
        rewrite (setAnimationFrame_at _ _ _ _ H1). cbn zeta.
        change (Anim.set_idx _ a') with a'. change (Anim.frame a') with (Anim.frame a).
        by rewrite Hf, put_geometry, put_put.
      * pose proof (active_put _ _ _ a' H) as H1.
        rewrite (setAnimationFrame_at _ _ _ _ H1). cbn zeta.
        change (Anim.set_idx _ a') with a'. change (Anim.frame a') with (Anim.frame a).
        by rewrite Hf, put_put.
    + destruct (host_current s) as [[k h]|] eqn:Hh.
      * rewrite (setAnimationFrame_host _ _ _ _ Hh). cbn [fst].
        rewrite (setAnimationFrame_host _ _ _ _ (host_current_stored _ _ _ _ Hh)).
        cbn [inherited set_inherited]. rewrite insert_insert_eq.
        by destruct s.
      * rewrite (setAnimationFrame_no_current _ _ Hc Hh). cbn [fst].
        by apply setAnimationFrame_no_current.
  - intros a Hc. destruct (cur_anim_active _ _ Hc) as [l H].
    rewrite (setAnimationFrame_at _ _ _ _ H). cbn zeta.
    set (a' := Anim.set_idx _ a). unfold getCurrentAnimationFrame.
    destruct (array_get _ _) as [f|]; cbn [fst].
    + pose proof (active_geometry _ _ _ f (active_put _ _ _ a' H)) as H1.
      by rewrite (on_current_at _ _ _ _ _ H1), (bind_load_current _ _ _ _ H1).
    + pose proof (active_put _ _ _ a' H) as H1.
      by rewrite (on_current_at _ _ _ _ _ H1), (bind_load_current _ _ _ _ H1).
Qed.

Lemma setAnimationFrame_twice_witness :
  snd (getCurrentAnimationFrame (fst (setAnimationFrame (Some (Int 15)) demo_sheet)))
  = Ret (Int 3).
Proof.
  destruct (setAnimationFrame_twice (Some (Int 15)) demo_sheet) as [_ H].
  rewrite (H (Anim.mk "walk" (map Some (take 6 demo_cells)) (Int 0) 6 100 100)).
  - reflexivity.
  - vm_compute. reflexivity.
Defined.

(** ** Construction *)

Lemma names_ok_spec s :
  names_ok s ↔
    ∀ n l, anim s !! n = Some l → ∃ a, heap s !! l = Some a ∧ Anim.name a = n.
Proof.
  unfold names_ok, names_okb. rewrite forallb_forall. split.
  - intros H n l Hn.
    apply elem_of_map_to_list, list_elem_of_In, H in Hn.
    destruct (heap s !! l) as [a|]; [|done].
    exists a. split; [done|]. by apply bool_decide_eq_true in Hn.
  - intros H [n l] Hn%list_elem_of_In%elem_of_map_to_list.
    destruct (H n l Hn) as (a & -> & Ha). by apply bool_decide_eq_true.
Qed.

(** X2.  Construction over an empty atlas throws a TypeError (the default
    animation has no frame to show).  Over any other atlas it goes through
    and leaves a well-formed sheet: not paused, no completion policy, the
    animation "default" current with every frame of the atlas in order, on
    frame 0 with the first frame's geometry and a countdown of 100 ms; no
    animation object of the sheet is ill formed. *)
Theorem init_default fw fh st :
  (textureAtlas (blank fw fh st) = [] → snd (init fw fh st) = Throw TypeError)
  ∧ ∀ f rest, textureAtlas (blank fw fh st) = f :: rest →
      snd (init fw fh st) = Ret tt
      ∧ activeName (fst (init fw fh st)) = Some "default"
      ∧ activeFrames (fst (init fw fh st)) = Some (map Some (f :: rest))
      ∧ currentIndex (fst (init fw fh st)) = Some (Int 0)
      ∧ remainingMs (fst (init fw fh st)) = Some 100
      ∧ geometry (fst (init fw fh st)) = f
      ∧ animationpause (fst (init fw fh st)) = false
      ∧ resetAnim (fst (init fw fh st)) = None
      ∧ sheet_ok (fst (init fw fh st))
      ∧ Forall anim_ok (heap (fst (init fw fh st)))
      ∧ names_ok (fst (init fw fh st)).
Proof.
  unfold init, bind. rewrite addAnimation_at. cbn zeta.
  rewrite resolve_prefix_default.
  set (atlas := textureAtlas (blank fw fh st)).
  set (a0 := Anim.mk _ _ _ _ _ _).
  assert (Hn : anim (stored "default" a0 (blank fw fh st)) !! "default" = Some 0%nat)
    by (cbn; apply lookup_insert_eq).
  assert (Hh : heap (stored "default" a0 (blank fw fh st)) !! 0%nat = Some a0)
    by reflexivity.
  rewrite (setCurrentAnimation_at _ _ _ _ _ Hn Hh). cbn zeta.
  cbn [a0 Anim.idx Anim.length Anim.frame Anim.set_idx or_zero js_rem].
  split.
  - intros ->. reflexivity.
  - intros f rest ->.
    assert (Hlen : Z.of_nat (length (map Some (f :: rest))) ≠ 0) by (cbn; lia).
    destruct (Z.eqb_spec (Z.of_nat (length (map Some (f :: rest)))) 0); [done|].
    rewrite Z.rem_0_l by done.
    change (array_get (map Some (f :: rest)) (Int 0)) with (Some f).
    cbn [fst snd]. split; [done|].
    unfold activeName, activeFrames, currentIndex, remainingMs, cur_anim.
    cbn. do 4 (split; [done|]). split; [by destruct f|].
    split; [done|]. split; [done|].
    assert (Hok : anim_ok (Anim.set_nextFrame 100 (Anim.set_idx (Int 0) a0))).
    { apply anim_ok_spec. cbn.
      split; [by rewrite length_map|]. split.
      { apply Forall_cons. split; [by eexists|].
        apply Forall_forall. intros x (y & -> & _)%list_elem_of_fmap. by eexists. }
      exists 0. split; [done|]. lia. }
    split; [|split].
    + apply sheet_ok_spec. cbn. split; [|split; [|done]].
      * by eexists 0%nat, _.
      * intros k l Hk.
        apply lookup_insert_Some in Hk as [[_ <-]|[_ Hk]]; [|done]. by eexists.
    + by apply Forall_singleton.
    + apply names_ok_spec. cbn. intros k l Hk.
      apply lookup_insert_Some in Hk as [[<- <-]|[_ Hk]]; [|done].
      by eexists.
Qed.

Lemma init_default_witness :
  snd (init 64 64 (FromSpriteSheet demo_cells)) = Ret tt
  ∧ geometry (fst (init 64 64 (FromSpriteSheet demo_cells))) = demo_cell 0
  ∧ sheet_ok (fst (init 64 64 (FromSpriteSheet demo_cells)))
  ∧ snd (init 64 64 (FromAtlas [] ∅)) = Throw TypeError.
Proof.
  destruct (init_default 64 64 (FromSpriteSheet demo_cells)) as [_ H].
  destruct (H (demo_cell 0) (map demo_cell (seq 1 10)) eq_refl)
    as (H1 & _ & _ & _ & _ & H6 & _ & _ & H9 & _).
  destruct (init_default 64 64 (FromAtlas [] ∅)) as [H0 _].
  split; [exact H1|]. split; [exact H6|]. split; [exact H9|]. by apply H0.
Defined.

(** ** Animations without a frame to show *)

(** X3.  Selecting an animation whose [length] is 0 (defined with an empty
    index list, or left behind by an addAnimation that threw) throws a
    TypeError, but only after the switch: the animation is the current one,
    its frame index is NaN and the completion policy is the one passed.
    From then on update does nothing and answers false. *)
Theorem setCurrentAnimation_no_frame callback name r s l a :
  anim s !! name = Some l → heap s !! l = Some a → Anim.length a = 0 →
  snd (setCurrentAnimation name r s) = Throw TypeError
  ∧ current (fst (setCurrentAnimation name r s)) = Some l
  ∧ currentIndex (fst (setCurrentAnimation name r s)) = Some NaN
  ∧ resetAnim (fst (setCurrentAnimation name r s)) = or_null r
  ∧ ∀ dts, ticks callback dts (fst (setCurrentAnimation name r s))
           = (fst (setCurrentAnimation name r s), Ret (replicate (length dts) false)).
Proof.
  intros Hn Hh Hlen. rewrite (setCurrentAnimation_at _ _ _ _ _ Hn Hh). cbn zeta.
  rewrite Hlen.
  assert (Hnan : js_rem (or_zero (Some (Anim.idx a))) (Int 0) = NaN)
    by (by destruct (Anim.idx a)).
  rewrite Hnan. cbn [Anim.idx Anim.set_idx array_get fst snd].
  set (s1 := set_resetAnim _ _).
  assert (H1 : active s1 l a) by (by split).
  pose proof (active_put _ _ _ (Anim.set_idx NaN a) H1) as H2.
  split; [done|]. split; [done|].
  split; [unfold currentIndex; by rewrite (active_cur_anim _ _ _ H2)|].
  split; [done|].
  intros dts. apply ticks_fixed. intros dt.
  destruct (animationpause (put l (Anim.set_idx NaN a) s1)) eqn:Hp.
  - by apply update_paused.
  - apply (update_short _ _ _ _ _ H2 Hp). cbn. lia.
Qed.

Lemma setCurrentAnimation_no_frame_witness :
  let s := fst (addAnimation "idle" (Some []) None demo_sheet) in
  snd (setCurrentAnimation "idle" None s) = Throw TypeError
  ∧ currentIndex (fst (setCurrentAnimation "idle" None s)) = Some NaN.
Proof.
  destruct (setCurrentAnimation_no_frame no_callbacks "idle" None
              (fst (addAnimation "idle" (Some []) None demo_sheet))
              3%nat (Anim.mk "idle" [] (Int 0) 0 100 0))
    as (H1 & _ & H3 & _).
  - vm_compute. reflexivity.
  - vm_compute. reflexivity.
  - reflexivity.
  - split; [exact H1 | exact H3].
Defined.

(** X4.  addAnimation does not check ordinals against the atlas; a frame
    that did not resolve is met only when it is to be shown.  A due tick
    that advances onto such a frame throws a TypeError after the frame
    index has moved onto it, with the countdown left run out (not
    re-armed), the geometry of the previous frame still in place and no
    callback called. *)
Theorem update_missing_frame callback dt s l a i :
  active s l a → animationpause s = false → 1 < Anim.length a →
  Anim.nextFrame a - dt ≤ 0 → Anim.idx a = Int i →
  array_get (Anim.frame a) (Int (Z.rem (i + 1) (Anim.length a))) = None →
  update callback dt s
  = (put l (Anim.mk (Anim.name a) (Anim.frame a)
              (Int (Z.rem (i + 1) (Anim.length a))) (Anim.length a)
              (Anim.animationspeed a) (Anim.nextFrame a - dt)) s,
     Throw TypeError).
Proof.
  intros H Hp Hlen Hdue Hi Hf.
  rewrite (update_due _ _ _ _ _ H Hp Hlen Hdue).
  set (a1 := Anim.set_nextFrame (Anim.nextFrame a - dt) a).
  pose proof (active_put _ _ _ a1 H) as H1.
  unfold advance. run_cur H1. run_cur H1.
  pose proof (active_put _ _ _ (Anim.set_idx (js_succ (Anim.idx a1)) a1) H1) as H2.
  run_cur H2. unfold bind at 1. rewrite (setAnimationFrame_at _ _ _ _ H2).
  cbn [a1 Anim.idx Anim.set_idx Anim.length Anim.frame Anim.set_nextFrame].
  rewrite Hi. cbn [js_succ or_zero js_rem].
  destruct (Z.eqb_spec (Anim.length a) 0); [lia|].
  cbn zeta. cbn [Anim.idx]. rewrite Hf. by rewrite !put_put.
Qed.

Lemma update_missing_frame_witness :
  let s := fst ((do _ <- addAnimation "blink" (Some [INum 0; INum 99]) None;
                 setCurrentAnimation "blink" None) demo_sheet) in
  snd (update no_callbacks 100 s) = Throw TypeError
  ∧ currentIndex (fst (update no_callbacks 100 s)) = Some (Int 1)
  ∧ remainingMs (fst (update no_callbacks 100 s)) = Some 0
  ∧ geometry (fst (update no_callbacks 100 s)) = demo_cell 0.
Proof.
  cbn zeta.
  rewrite (update_missing_frame no_callbacks 100 _ 3%nat
             (Anim.mk "blink" [Some (demo_cell 0); None] (Int 0) 2 100 100) 0).
  - vm_compute. repeat split.
  - split; vm_compute; reflexivity.
  - vm_compute. reflexivity.
  - cbn. lia.
  - cbn. lia.
  - reflexivity.
  - reflexivity.
Defined.

(** ** Defining an animation, then selecting it *)

(** X5.  An animation that was just defined starts from its beginning:
    when addAnimation went through and the first frame resolved, selecting
    the name makes the new animation current on frame 0 with that frame's
    geometry, with the countdown at the speed given (the sheet's default
    speed when the speed is absent or 0) and the completion policy passed
    (none for an absent policy or an empty name). *)
Theorem addAnimation_then_select name ix speed r s a f :
  snd (addAnimation name (Some ix) speed s) = Ret tt →
  sequence (fst (addAnimation name (Some ix) speed s)) name = Some a →
  Anim.frame a !! 0%nat = Some (Some f) →
  let s2 := fst (setCurrentAnimation name r (fst (addAnimation name (Some ix) speed s))) in
  snd (setCurrentAnimation name r (fst (addAnimation name (Some ix) speed s))) = Ret tt
  ∧ activeName s2 = Some name
  ∧ activeFrames s2 = Some (Anim.frame a)
  ∧ currentIndex s2 = Some (Int 0)
  ∧ remainingMs s2 = Some (speed_or speed (animationspeed s))
  ∧ geometry s2 = f
  ∧ resetAnim s2 = or_null r.
Proof.
  rewrite addAnimation_at. cbn zeta.
  destruct (resolve_prefix _ _ ix) as [fs ok]. destruct ok; [|discriminate].
  cbn [fst snd]. intros _. rewrite sequence_stored. intros [= <-]. cbn [Anim.frame].
  intros Hf. cbn zeta.
  set (a := Anim.mk _ _ _ _ _ _).
  assert (Hn : anim (stored name a s) !! name = Some (length (heap s)))
    by (cbn; apply lookup_insert_eq).
  assert (Hh : heap (stored name a s) !! length (heap s) = Some a)
    by (cbn; by apply list_lookup_middle).
  rewrite (setCurrentAnimation_at _ _ _ _ _ Hn Hh). cbn zeta.
  cbn [a Anim.idx Anim.length Anim.frame Anim.set_idx or_zero js_rem].
  assert (Hlen : Z.of_nat (length fs) ≠ 0)
    by (apply lookup_lt_Some in Hf; lia).
  destruct (Z.eqb_spec (Z.of_nat (length fs)) 0); [done|].
  rewrite Z.rem_0_l by done.
  assert (Hget : array_get fs (Int 0) = Some f).
  { destruct fs as [|o fs']; [discriminate Hf|]. by injection Hf as ->. }
  rewrite Hget. cbn [fst snd]. split; [done|].
  set (s1 := set_resetAnim _ _).
  assert (H1 : active s1 (length (heap s)) a) by (by split).
  unfold activeName, activeFrames, currentIndex, remainingMs.
  rewrite (active_cur_anim _ _ _ (active_geometry _ _ _ f (active_put _ _ _ _ H1))).
  cbn. do 4 (split; [done|]). split; [by destruct f | done].
Qed.

Lemma addAnimation_then_select_witness :
  let s1 := fst (addAnimation "roll" (Some (map INum [7; 8; 9; 10])) (Some 200)
                   (fst (update no_callbacks 100 demo_sheet))) in
  currentIndex (fst (setCurrentAnimation "roll" (Some (Chain "")) s1)) = Some (Int 0)
  ∧ remainingMs (fst (setCurrentAnimation "roll" (Some (Chain "")) s1)) = Some 200
  ∧ resetAnim (fst (setCurrentAnimation "roll" (Some (Chain "")) s1)) = None.
Proof.
  destruct (addAnimation_then_select "roll" (map INum [7; 8; 9; 10]) (Some 200)
              (Some (Chain "")) (fst (update no_callbacks 100 demo_sheet))
              (Anim.mk "roll" (map Some (take 4 (drop 7 demo_cells))) (Int 0) 4 200 0)
              (demo_cell 7))
    as (_ & _ & _ & H4 & H5 & _ & H7).
  - vm_compute. reflexivity.
  - vm_compute. reflexivity.
  - reflexivity.
  - split; [exact H4|]. split; [exact H5 | exact H7].
Defined.

(** X6.  addAnimation never touches the animation that is playing, whether
    it goes through or throws, and whatever name it defines: the current
    object, with its frames, frame index and countdown, is as before.  A
    definition under the current animation's own name is stored as a
    separate object, so it shows only once the name is selected again; the
    objects already stored are as before and the other names point where
    they did. *)
Theorem addAnimation_keeps_playing name index speed s l a :
  active s l a →
  active (fst (addAnimation name index speed s)) l a
  ∧ anim (fst (addAnimation name index speed s)) !! name = Some (length (heap s))
  ∧ l ≠ length (heap s)
  ∧ (∀ other, other ≠ name →
       anim (fst (addAnimation name index speed s)) !! other = anim s !! other)
  ∧ (∀ l' b, heap s !! l' = Some b →
       heap (fst (addAnimation name index speed s)) !! l' = Some b).
Proof.
  intros [Hc Hh]. rewrite addAnimation_at. cbn zeta.
  destruct (resolve_prefix _ _ _) as [fs ok].
  assert (Hl : (l < length (heap s))%nat) by (eapply lookup_lt_Some, Hh).
  assert (Hgen : ∀ x,
    active (stored name x s) l a
    ∧ anim (stored name x s) !! name = Some (length (heap s))
    ∧ l ≠ length (heap s)
    ∧ (∀ other, other ≠ name → anim (stored name x s) !! other = anim s !! other)
    ∧ (∀ l' b, heap s !! l' = Some b → heap (stored name x s) !! l' = Some b)).
  { intros x. split; [split; [done | cbn; by apply lookup_app_l_Some]|].
    split; [cbn; apply lookup_insert_eq|]. split; [lia|]. split.
    - intros other Hne. cbn. by apply lookup_insert_ne.
    - intros l' b Hb. cbn. by apply lookup_app_l_Some. }
  destruct ok; apply Hgen.
Qed.

Lemma addAnimation_keeps_playing_witness :
  let s := fst (update no_callbacks 100 demo_sheet) in
  let s' := fst (addAnimation "walk" (Some [INum 9; IStr "x"]) None s) in
  cur_anim s' = cur_anim s ∧ currentIndex s' = Some (Int 1)
  ∧ sequence s' "walk" ≠ cur_anim s'.
Proof.
  cbn zeta.
  destruct (addAnimation_keeps_playing "walk" (Some [INum 9; IStr "x"]) None
              (fst (update no_callbacks 100 demo_sheet)) 1%nat
              (Anim.mk "walk" (map Some (take 6 demo_cells)) (Int 1) 6 100 100))
    as (H1 & _).
  - split; vm_compute; reflexivity.
  - unfold currentIndex. rewrite (active_cur_anim _ _ _ H1).
    split; [vm_compute; reflexivity|]. split; [reflexivity|].
    vm_compute. discriminate.
Defined.

(** ** Chaining at the end of an animation *)

Section Chain.

Variable callback : nat → Sheet → Sheet * value.

(** A due tick on the last frame, with a name as completion policy: the
    index wraps to 0, then the name is selected with no policy. *)
Lemma update_wrap_chain dt s l a id f0 :
  active s l a → animationpause s = false → 1 < Anim.length a →
  resetAnim s = Some (Chain id) → id ≠ "" →
  Anim.idx a = Int (Anim.length a - 1) → Anim.nextFrame a - dt ≤ 0 →
  array_get (Anim.frame a) (Int 0) = Some f0 →
  update callback dt s =
    bind (setCurrentAnimation id None) (fun _ => rearm dt)
      (set_geometry f0
         (put l (Anim.mk (Anim.name a) (Anim.frame a) (Int 0) (Anim.length a)
                   (Anim.animationspeed a) (Anim.nextFrame a - dt)) s)).
Proof.
  intros H Hp Hlen Hr Hid Hi Hdue Hf.
  rewrite (update_due _ _ _ _ _ H Hp Hlen Hdue).
  set (a1 := Anim.set_nextFrame (Anim.nextFrame a - dt) a).
  pose proof (active_put _ _ _ a1 H) as H1.
  assert (Hrem : Z.rem (Anim.length a - 1 + 1) (Anim.length a) = 0)
    by (rewrite Z.sub_add; apply Z.rem_same; lia).
  rewrite (advance_at _ _ _ _ _ (Anim.length a - 1) f0 H1 Hi);
    [| cbn; lia | cbn [a1 Anim.length Anim.frame Anim.set_nextFrame]; by rewrite Hrem ].
  cbn zeta. cbn [a1 Anim.length Anim.set_nextFrame]. rewrite Hrem. cbn [Z.eqb].
  change (resetAnim (put l a1 s)) with (resetAnim s). rewrite Hr.
  destruct id as [|c id]; [done|]. by rewrite put_put.
Qed.

(** X7.  Chaining.  When a due tick on the last frame wraps and the
    completion policy is the name of a stored, well-formed animation, the
    tick answers true, that animation becomes the current one with its
    countdown at its own speed, and the policy is cleared: a chain runs
    once.  The animation reached is on the frame index it was last left on
    (0 when it chains to itself); the one that finished is left on frame 0
    with its countdown run out. *)
Theorem update_chains dt s l a id l' a' :
  active s l a → anim_ok a → animationpause s = false → 1 < Anim.length a →
  resetAnim s = Some (Chain id) → id ≠ "" →
  Anim.idx a = Int (Anim.length a - 1) → Anim.nextFrame a - dt ≤ 0 →
  anim s !! id = Some l' → heap s !! l' = Some a' → anim_ok a' →
  snd (update callback dt s) = Ret true
  ∧ current (fst (update callback dt s)) = Some l'
  ∧ resetAnim (fst (update callback dt s)) = None
  ∧ activeName (fst (update callback dt s)) = Some (Anim.name a')
  ∧ remainingMs (fst (update callback dt s)) = Some (Anim.animationspeed a')
  ∧ currentIndex (fst (update callback dt s))
    = Some (if decide (l' = l) then Int 0 else Anim.idx a')
  ∧ (l' ≠ l →
     heap (fst (update callback dt s)) !! l
     = Some (Anim.mk (Anim.name a) (Anim.frame a) (Int 0) (Anim.length a)
               (Anim.animationspeed a) (Anim.nextFrame a - dt))).
Proof.
  intros H Hok Hp Hlen Hr Hid Hi Hdue Hn Hh' Hok'.
  destruct (anim_ok_frame a 0 Hok ltac:(lia)) as [f0 Hf0].
  rewrite (update_wrap_chain _ _ _ _ _ f0 H Hp Hlen Hr Hid Hi Hdue Hf0).
  set (a0 := Anim.mk _ _ (Int 0) _ _ _).
  set (s1 := set_geometry f0 (put l a0 s)).
  assert (Hl : (l < length (heap s))%nat) by (eapply lookup_lt_Some, H).
  assert (Hok0 : anim_ok a0).
  { apply (anim_ok_set_idx _ (Anim.set_nextFrame (Anim.nextFrame a - dt) a));
      [by apply anim_ok_set_nextFrame | cbn; lia]. }
  set (t := if decide (l' = l) then a0 else a').
  assert (Ht : heap s1 !! l' = Some t).
  { unfold t. cbn. destruct (decide (l' = l)) as [->|Hne].
    - by apply list_lookup_insert_eq.
    - by rewrite list_lookup_insert_ne. }
  assert (Hokt : anim_ok t) by (unfold t; by destruct (decide (l' = l))).
  assert (Htn : Anim.name t = Anim.name a' ∧ Anim.animationspeed t = Anim.animationspeed a').
  { unfold t. destruct (decide (l' = l)) as [->|Hne]; [|done].
    destruct H as [_ H]. rewrite H in Hh'. by injection Hh' as <-. }
  destruct (setCurrentAnimation_ok_at id None s1 l' t Hn Ht Hokt) as (f & _ & Hsel).
  unfold bind. rewrite Hsel.
  set (s2 := set_geometry f _).
  assert (H2 : active s2 l' (Anim.set_nextFrame (Anim.animationspeed t) t)).
  { apply active_geometry. split; [done|].
    apply heap_put. cbn. rewrite length_insert. eapply lookup_lt_Some, Hh'. }
  rewrite (rearm_at _ _ _ _ H2). cbn [fst snd].
  pose proof (active_put _ _ _
    (Anim.set_nextFrame (Anim.animationspeed (Anim.set_nextFrame (Anim.animationspeed t) t))
       (Anim.set_nextFrame (Anim.animationspeed t) t)) H2) as H3.
  unfold activeName, remainingMs, currentIndex.
  rewrite (active_cur_anim _ _ _ H3). cbn.
  destruct Htn as [-> ->].
  split; [done|]. split; [done|]. split; [done|]. split; [done|]. split; [done|].
  split.
  - unfold t. by destruct (decide (l' = l)).
  - intros Hne. rewrite !list_lookup_insert_ne by done.
    by apply list_lookup_insert_eq.
Qed.

(** X8.  Chaining to a name that is not defined, and that [this.anim] does
    not inherit either.  The due tick on the last frame throws the
    "animation id ... not defined" error after it has wrapped: the frame
    index is 0 with the first frame's geometry, the countdown is left run
    out and the policy stays in place. *)
Theorem update_chain_unknown dt s l a id :
  active s l a → anim_ok a → animationpause s = false → 1 < Anim.length a →
  resetAnim s = Some (Chain id) → id ≠ "" →
  Anim.idx a = Int (Anim.length a - 1) → Anim.nextFrame a - dt ≤ 0 →
  anim s !! id = None → inherited s !! id = None →
  snd (update callback dt s) = Throw (UnknownSequence id)
  ∧ currentIndex (fst (update callback dt s)) = Some (Int 0)
  ∧ Some (geometry (fst (update callback dt s))) = array_get (Anim.frame a) (Int 0)
  ∧ remainingMs (fst (update callback dt s)) = Some (Anim.nextFrame a - dt)
  ∧ resetAnim (fst (update callback dt s)) = Some (Chain id)
  ∧ cb_calls (fst (update callback dt s)) = cb_calls s.
Proof.
  intros H Hok Hp Hlen Hr Hid Hi Hdue Hn Hinh.
  destruct (anim_ok_frame a 0 Hok ltac:(lia)) as [f0 Hf0].
  rewrite (update_wrap_chain _ _ _ _ _ f0 H Hp Hlen Hr Hid Hi Hdue Hf0).
  set (a0 := Anim.mk _ _ (Int 0) _ _ _).
  unfold bind. rewrite setCurrentAnimation_unknown by done. cbn [fst snd].
  unfold currentIndex, remainingMs.
  rewrite (active_cur_anim _ _ _ (active_geometry _ _ _ f0 (active_put _ _ _ a0 H))).
  rewrite Hf0. cbn. split; [done|]. split; [done|]. split; [by destruct f0|]. done.
Qed.

End Chain.

Lemma update_chains_witness :
  let s := fst (update no_callbacks 100
                  (fst (setCurrentAnimation "eat" (Some (Chain "walk"))
                          (fst (update no_callbacks 100 demo_sheet))))) in
  snd (update no_callbacks 100 s) = Ret true
  ∧ activeName (fst (update no_callbacks 100 s)) = Some "walk"
  ∧ resetAnim (fst (update no_callbacks 100 s)) = None
  ∧ currentIndex (fst (update no_callbacks 100 s)) = Some (Int 1).
Proof.
  cbn zeta.
  destruct (update_chains no_callbacks 100
              (fst (update no_callbacks 100
                  (fst (setCurrentAnimation "eat" (Some (Chain "walk"))
                          (fst (update no_callbacks 100 demo_sheet))))))
              2%nat
              (Anim.mk "eat" [Some (demo_cell 6); Some (demo_cell 6)] (Int 1) 2 100 100)
              "walk" 1%nat
              (Anim.mk "walk" (map Some (take 6 demo_cells)) (Int 1) 6 100 100))
    as (H1 & _ & H3 & H4 & _ & H6 & _).
  - split; vm_compute; reflexivity.
  - vm_compute. reflexivity.
  - vm_compute. reflexivity.
  - cbn. lia.
  - vm_compute. reflexivity.
  - discriminate.
  - reflexivity.
  - cbn. lia.
  - vm_compute. reflexivity.
  - vm_compute. reflexivity.
  - vm_compute. reflexivity.
  - split; [exact H1|]. split; [exact H4|]. split; [exact H3 | exact H6].
Defined.

Lemma update_chain_unknown_witness :
  let s := fst (update no_callbacks 100
                  (fst (setCurrentAnimation "eat" (Some (Chain "jump")) demo_sheet))) in
  snd (update no_callbacks 100 s) = Throw (UnknownSequence "jump")
  ∧ currentIndex (fst (update no_callbacks 100 s)) = Some (Int 0)
  ∧ remainingMs (fst (update no_callbacks 100 s)) = Some (100 - 100).
Proof.
  cbn zeta.
  destruct (update_chain_unknown no_callbacks 100
              (fst (update no_callbacks 100
                  (fst (setCurrentAnimation "eat" (Some (Chain "jump")) demo_sheet))))
              2%nat
              (Anim.mk "eat" [Some (demo_cell 6); Some (demo_cell 6)] (Int 1) 2 100 100)
              "jump")
    as (H1 & H2 & _ & H4 & _).
  - split; vm_compute; reflexivity.
  - vm_compute. reflexivity.
  - vm_compute. reflexivity.
  - cbn. lia.
  - vm_compute. reflexivity.
  - discriminate.
  - reflexivity.
  - cbn. lia.
  - vm_compute. reflexivity.
  - vm_compute. reflexivity.
  - split; [exact H1|]. split; [exact H2 | exact H4].
Defined.

(** ** When the completion callback runs *)

Lemma silent_modify f : (∀ s, cb_calls (f s) = cb_calls s) → silent (modify f).
Proof. intros Hf s. apply Hf. Qed.

Lemma silent_setCurrentAnimation name r : silent (setCurrentAnimation name r).
Proof.
  unfold setCurrentAnimation.
  apply silent_bind; [by intros s | intros [l|]].
  - apply silent_bind; [by apply silent_modify | intros _].
    apply silent_bind; [by apply silent_modify | intros _].
    apply silent_bind; [apply silent_load_current | intros cur].
    apply silent_bind; [apply silent_setAnimationFrame | intros _].
    apply silent_bind; [apply silent_load_current | intros cur'].
    apply silent_store_current.
  - apply silent_bind; [by intros s | intros [h|]]; [|apply silent_throw].
    apply silent_bind; [by apply silent_modify | intros _].
    apply silent_bind; [by apply silent_modify | intros _].
    apply silent_bind; [apply silent_setAnimationFrame | intros _].
    apply silent_on_current; [apply silent_ret | intros k h'; apply silent_store_host].
Qed.

Section Calls.

Variable callback : nat → Sheet → Sheet * value.

(** X9.  update calls the completion callback on exactly one kind of tick:
    the sheet is not paused, the animation has more than one frame, the
    countdown runs out, the frame index is on the last frame and the policy
    is a callback.  On such a tick what update leaves and answers goes
    through the callback, applied once to the sheet wrapped to frame 0; on
    every other tick, whatever the policy, update does the same with any
    other callbacks in place of these: none is called. *)
Theorem update_calls_at_wrap_only dt s l a :
  active s l a → anim_ok a →
  let wraps :=
    animationpause s = false ∧ 1 < Anim.length a ∧ Anim.nextFrame a - dt ≤ 0
    ∧ Anim.idx a = Int (Anim.length a - 1)
    ∧ ∃ g, resetAnim s = Some (Callback g) in
  (wraps →
     ∃ g f0,
       resetAnim s = Some (Callback g)
       ∧ array_get (Anim.frame a) (Int 0) = Some f0
       ∧ let wrapped :=
           set_geometry f0
             (put l (Anim.mk (Anim.name a) (Anim.frame a) (Int 0) (Anim.length a)
                       (Anim.animationspeed a) (Anim.nextFrame a - dt)) s) in
         update callback dt s
         = (if strict_false (snd (callback g wrapped)) then hold dt else rearm dt)
             (set_cb_calls (S (cb_calls s)) (fst (callback g wrapped)))
         ∧ cb_calls (fst (update callback dt s)) = S (cb_calls s))
  ∧ (¬ wraps →
     (∀ other : nat → Sheet → Sheet * value,
        update other dt s = update callback dt s)
     ∧ cb_calls (fst (update callback dt s)) = cb_calls s).
Proof.
  intros H Hok. cbn zeta. split.
  - intros (Hp & Hlen & Hdue & Hi & g & Hr).
    destruct (anim_ok_frame a 0 Hok ltac:(lia)) as [f0 Hf0].
    exists g, f0. split; [done|]. split; [done|]. split.
    + rewrite (update_wrap_call callback g dt s l a f0 H Hp Hlen Hr Hi Hdue Hf0).
      unfold bind, call. cbn [cb_calls set_geometry put set_heap].
      by destruct (callback g _) as [s2 v].
    + by apply (update_wrap_calls_once callback g dt s l a).
  - intros Hnot.
    destruct (animationpause s) eqn:Hp;
      [split; [intros other|]; by rewrite !update_paused|].
    destruct (Z.le_gt_cases (Anim.length a) 1) as [Hlen|Hlen].
    { split; [intros other|];
        by rewrite ?(update_short _ _ _ _ _ H Hp Hlen). }
    destruct (Z.le_gt_cases (Anim.nextFrame a - dt) 0) as [Hdue|Hwait].
    2: { split; [intros other|];
           by rewrite ?(update_wait _ _ _ _ _ H Hp Hlen Hwait). }
    pose proof Hok as (_ & _ & i & Hi & Hr)%anim_ok_spec.
    set (a1 := Anim.set_nextFrame (Anim.nextFrame a - dt) a).
    pose proof (active_put _ _ _ a1 H) as H1.
    assert (Hj : 0 ≤ Z.rem (i + 1) (Anim.length a) < Anim.length a)
      by (rewrite Z.rem_mod_nonneg by lia; apply Z.mod_pos_bound; lia).
    destruct (anim_ok_frame a _ Hok Hj) as [f Hf].
    assert (Hrun : ∀ cb : nat → Sheet → Sheet * value,
      update cb dt s =
        let j := Z.rem (i + 1) (Anim.length a) in
        let s1 := set_geometry f (put l (Anim.set_idx (Int j) a1) (put l a1 s)) in
        if j =? 0 then
          match resetAnim s with
          | Some (Chain "") | None => rearm dt s1
          | Some (Chain id) => bind (setCurrentAnimation id None) (fun _ => rearm dt) s1
          | Some (Callback g) =>
              bind (call cb g) (fun v => if strict_false v then hold dt else rearm dt) s1
          end
        else rearm dt s1).
    { intros cb. rewrite (update_due _ _ _ _ _ H Hp Hlen Hdue).
      rewrite (advance_at _ _ _ _ _ i f H1 Hi); [done | cbn; lia | exact Hf]. }
    assert (Hnocb : Z.rem (i + 1) (Anim.length a) = 0 →
                    ∀ g, resetAnim s ≠ Some (Callback g)).
    { intros Hz g Hra. apply Hnot. do 3 (split; [done|]). split; [|by exists g].
      rewrite Hi. f_equal.
      rewrite Z.rem_mod_nonneg in Hz by lia.
      destruct (Z.eq_dec (i + 1) (Anim.length a)) as [|Hne]; [lia|].
      rewrite Z.mod_small in Hz by lia. lia. }
    split; [intros other; rewrite (Hrun other)|]; rewrite (Hrun callback); cbn zeta.
    + destruct (Z.eqb_spec (Z.rem (i + 1) (Anim.length a)) 0) as [Hz|Hz]; [|done].
      destruct (resetAnim s) as [[id|g]|] eqn:Hra; [done| |done].
      by destruct (Hnocb Hz g).
    + destruct (Z.eqb_spec (Z.rem (i + 1) (Anim.length a)) 0) as [Hz|Hz];
        [|by rewrite silent_rearm].
      destruct (resetAnim s) as [[id|g]|] eqn:Hra; [| |by rewrite silent_rearm].
      * destruct id as [|c id]; [by rewrite silent_rearm|].
        rewrite (silent_bind (setCurrentAnimation (String c id) None)
                   (fun _ => rearm dt)); [done | apply silent_setCurrentAnimation |].
        intros _. apply silent_rearm.
      * by destruct (Hnocb Hz g).
Qed.

(** A due tick on the last frame whose callback answers something else than
    false, leaving the sheet alone: the animation goes round. *)
Lemma update_wrap_continue g v dt s l a :
  (∀ s0, callback g s0 = (s0, v)) → strict_false v = false →
  active s l a → anim_ok a → animationpause s = false → 1 < Anim.length a →
  resetAnim s = Some (Callback g) →
  Anim.idx a = Int (Anim.length a - 1) → Anim.nextFrame a - dt ≤ 0 →
  ∃ s', update callback dt s = (s', Ret true)
        ∧ active s' l (Anim.mk (Anim.name a) (Anim.frame a) (Int 0) (Anim.length a)
                         (Anim.animationspeed a) (Anim.animationspeed a))
        ∧ animationpause s' = false
        ∧ resetAnim s' = Some (Callback g)
        ∧ cb_calls s' = S (cb_calls s).
Proof.
  intros Hcb Hv H Hok Hp Hlen Hr Hi Hdue.
  destruct (anim_ok_frame a 0 Hok ltac:(lia)) as [f0 Hf0].
  rewrite (update_wrap_call callback g dt s l a f0 H Hp Hlen Hr Hi Hdue Hf0).
  set (a0 := Anim.mk _ _ (Int 0) _ _ _).
  unfold bind, call. rewrite Hcb, Hv.
  set (s1 := set_cb_calls _ _).
  assert (H1 : active s1 l a0)
    by (split; [apply H | apply heap_put; eapply lookup_lt_Some, H]).
  rewrite (rearm_at _ _ _ _ H1). eexists. split; [reflexivity|].
  split; [|done]. exact (active_put _ _ _ _ H1).
Qed.

Lemma ticks_loop g v dts : ∀ s l a i,
  (∀ s0, callback g s0 = (s0, v)) → strict_false v = false →
  active s l a → anim_ok a → 1 < Anim.length a →
  animationpause s = false → resetAnim s = Some (Callback g) →
  Anim.idx a = Int i →
  ∃ s', ticks callback dts s
          = (s', Ret (reset_ticks (Anim.animationspeed a) (Anim.nextFrame a) dts))
        ∧ active s' l
            (Anim.mk (Anim.name a) (Anim.frame a)
               (Int ((i + advances (reset_ticks (Anim.animationspeed a)
                                      (Anim.nextFrame a) dts))
                     mod Anim.length a))
               (Anim.length a) (Anim.animationspeed a)
               (reset_left (Anim.animationspeed a) (Anim.nextFrame a) dts))
        ∧ Z.of_nat (cb_calls s')
          = Z.of_nat (cb_calls s)
            + (i + advances (reset_ticks (Anim.animationspeed a)
                               (Anim.nextFrame a) dts)) / Anim.length a.
Proof.
  induction dts as [|dt rest IH]; intros s l a i Hcb Hv H Hok Hlen Hp Hr Hi.
  - exists s. split; [reflexivity|]. cbn [reset_ticks reset_left].
    apply anim_ok_spec in Hok as (_ & _ & i' & Hi' & Hrange).
    rewrite Hi in Hi'. injection Hi' as <-.
    unfold advances. cbn. rewrite Z.add_0_r, Z.mod_small, Z.div_small by lia.
    rewrite <- Hi. split; [by destruct a | lia].
  - cbn [ticks reset_ticks reset_left]. unfold bind at 1.
    pose proof Hok as (_ & _ & i' & Hi' & Hrange)%anim_ok_spec.
    rewrite Hi in Hi'. injection Hi' as <-.
    destruct (Z.leb_spec (Anim.nextFrame a - dt) 0) as [Hdue|Hwait].
    + rewrite advances_true.
      destruct (Z.eq_dec (i + 1) (Anim.length a)) as [Hlast|Hmid].
      * assert (Hi' : Anim.idx a = Int (Anim.length a - 1))
          by (rewrite Hi; f_equal; lia).
        destruct (update_wrap_continue g v dt s l a Hcb Hv H Hok Hp Hlen Hr Hi' Hdue)
          as (s1 & -> & H1 & Hp1 & Hr1 & Hc1).
        set (a' := Anim.mk _ _ _ _ _ _) in H1.
        destruct (IH s1 l a' 0 Hcb Hv H1) as (s' & Ht & Ha' & Hc'); try done.
        { apply (anim_ok_set_idx _ (Anim.set_nextFrame (Anim.animationspeed a) a));
            [by apply anim_ok_set_nextFrame | cbn; lia]. }
        exists s'. unfold bind at 1. rewrite Ht. split; [reflexivity|].
        cbn [a' Anim.name Anim.frame Anim.length Anim.animationspeed Anim.nextFrame]
          in Ha', Hc'.
        set (n := advances _) in *.
        replace (i + (1 + n)) with (n + 1 * Anim.length a) by lia.
        rewrite Z.mod_add, Z.div_add by lia.
        rewrite Z.add_0_l in Ha', Hc'. split; [done|]. lia.
      * assert (Hj : Z.rem (i + 1) (Anim.length a) = i + 1)
          by (apply Z.rem_small; lia).
        destruct (anim_ok_frame a (i + 1) Hok ltac:(lia)) as [f Hf].
        rewrite (update_advance_plain callback dt s l a i f H Hp Hlen Hdue Hi);
          [| by rewrite Hj | rewrite Hj; lia ].
        rewrite Hj. set (a' := Anim.mk _ _ _ _ _ _).
        destruct (IH (set_geometry f (put l a' s)) l a' (i + 1) Hcb Hv)
          as (s' & Ht & Ha' & Hc'); try done.
        { apply active_geometry, (active_put _ _ _ _ H). }
        { apply (anim_ok_set_idx _ (Anim.set_nextFrame (Anim.animationspeed a) a));
            [by apply anim_ok_set_nextFrame | cbn; lia]. }
        exists s'. unfold bind at 1. rewrite Ht. split; [reflexivity|].
        cbn [a' Anim.name Anim.frame Anim.length Anim.animationspeed Anim.nextFrame]
          in Ha', Hc'.
        set (n := advances _) in *.
        replace (i + (1 + n)) with (i + 1 + n) by lia. split; [done|].
        cbn in Hc'. lia.
    + rewrite (update_wait _ _ _ _ _ H Hp Hlen Hwait).
      set (a' := Anim.set_nextFrame _ a).
      destruct (IH (put l a' s) l a' i Hcb Hv) as (s' & Ht & Ha' & Hc'); try done.
      { apply (active_put _ _ _ _ H). }
      exists s'. unfold bind at 1. rewrite Ht. split; [reflexivity|].
      rewrite advances_false. split; [done|]. cbn in Hc'. lia.
Qed.

(** X10.  With a completion callback that never answers false and leaves
    the sheet alone, the animation loops exactly as it does with no policy:
    a run of ticks answers as the countdown says, the frame index goes
    round, and the callback has been called once for each completed cycle. *)
Theorem ticks_callback_once_per_cycle g v dts s l a i :
  (∀ s0, callback g s0 = (s0, v)) → strict_false v = false →
  active s l a → anim_ok a → 1 < Anim.length a →
  animationpause s = false → resetAnim s = Some (Callback g) →
  Anim.idx a = Int i →
  let bs := reset_ticks (Anim.animationspeed a) (Anim.nextFrame a) dts in
  snd (ticks callback dts s) = Ret bs
  ∧ currentIndex (fst (ticks callback dts s))
    = Some (Int ((i + advances bs) mod Anim.length a))
  ∧ Z.of_nat (cb_calls (fst (ticks callback dts s)))
    = Z.of_nat (cb_calls s) + (i + advances bs) / Anim.length a.
Proof.
  intros Hcb Hv H Hok Hlen Hp Hr Hi. cbn zeta.
  destruct (ticks_loop g v dts s l a i Hcb Hv H Hok Hlen Hp Hr Hi)
    as (s' & -> & Ha' & Hc').
  cbn [fst snd]. unfold currentIndex. by rewrite (active_cur_anim _ _ _ Ha').
Qed.

End Calls.

Lemma update_calls_at_wrap_only_witness :
  let s := fst (setCurrentAnimation "eat" (Some (Callback 0)) demo_sheet) in
  let s1 := fst (update always_false 100 s) in
  update false_once 100 s = update always_false 100 s
  ∧ cb_calls s1 = cb_calls s
  ∧ (∃ wrapped,
       currentIndex wrapped = Some (Int 0)
       ∧ update always_false 100 s1
         = (if strict_false (snd (always_false 0 wrapped)) then hold 100 else rearm 100)
             (set_cb_calls (S (cb_calls s1)) (fst (always_false 0 wrapped))))
  ∧ cb_calls (fst (update always_false 100 s1)) = S (cb_calls s1).
Proof.
  cbn zeta.
  destruct (update_calls_at_wrap_only always_false 100
              (fst (setCurrentAnimation "eat" (Some (Callback 0)) demo_sheet))
              2%nat
              (Anim.mk "eat" [Some (demo_cell 6); Some (demo_cell 6)] (Int 0) 2 100 100))
    as [_ Hno]; [split; vm_compute; reflexivity | vm_compute; reflexivity |].
  destruct Hno as [Hsame Hcount];
    [intros (_ & _ & _ & Hi & _); discriminate Hi|].
  destruct (update_calls_at_wrap_only always_false 100
              (fst (update always_false 100
                      (fst (setCurrentAnimation "eat" (Some (Callback 0)) demo_sheet))))
              2%nat
              (Anim.mk "eat" [Some (demo_cell 6); Some (demo_cell 6)] (Int 1) 2 100 100))
    as [Hyes _]; [split; vm_compute; reflexivity | vm_compute; reflexivity |].
  destruct Hyes as (g & f0 & Hg & Hf0 & Hu & Hone).
  { split; [vm_compute; reflexivity|]. split; [cbn; lia|].
    split; [cbn; lia|]. split; [reflexivity|]. exists 0%nat. vm_compute. reflexivity. }
  assert (Hg0 : g = 0%nat) by (vm_compute in Hg; by injection Hg).
  subst g.
  split; [exact (Hsame false_once)|]. split; [exact Hcount|]. split; [|exact Hone].
  match type of Hu with
  | _ = (if strict_false (snd (always_false 0 ?w)) then _ else _) _ => exists w
  end.
  split; [reflexivity | exact Hu].
Defined.

Lemma ticks_callback_once_per_cycle_witness :
  let s := fst (setCurrentAnimation "eat" (Some (Callback 0)) demo_sheet) in
  snd (ticks no_callbacks [100; 100; 100; 100; 100] s)
    = Ret [true; true; true; true; true]
  ∧ currentIndex (fst (ticks no_callbacks [100; 100; 100; 100; 100] s)) = Some (Int 1)
  ∧ Z.of_nat (cb_calls (fst (ticks no_callbacks [100; 100; 100; 100; 100] s)))
    = Z.of_nat (cb_calls s) + 2.
Proof.
  cbn zeta.
  apply (ticks_callback_once_per_cycle no_callbacks 0 VUndefined
           [100; 100; 100; 100; 100]
           (fst (setCurrentAnimation "eat" (Some (Callback 0)) demo_sheet)) 2%nat
           (Anim.mk "eat" [Some (demo_cell 6); Some (demo_cell 6)] (Int 0) 2 100 100) 0).
  - intros s0. reflexivity.
  - reflexivity.
  - split; vm_compute; reflexivity.
  - vm_compute. reflexivity.
  - cbn. lia.
  - vm_compute. reflexivity.
  - vm_compute. reflexivity.
  - reflexivity.
Defined.

(** ** What update and the setters leave alone *)

Lemma same_def_refl a : same_def a a.
Proof. by repeat split. Qed.

Lemma same_def_trans a b c : same_def a b → same_def b c → same_def a c.
Proof.
  intros (H1 & H2 & H3 & H4) (H1' & H2' & H3' & H4').
  repeat split; congruence.
Qed.

Lemma same_defs_refl s : same_defs s s.
Proof.
  repeat split. apply Forall2_same_length_lookup. split; [done|].
  intros i x y Hx Hy. rewrite Hx in Hy. injection Hy as <-. apply same_def_refl.
Qed.

Lemma same_defs_trans s0 s1 s2 : same_defs s0 s1 → same_defs s1 s2 → same_defs s0 s2.
Proof.
  intros (H1 & H2 & H3 & H4 & H5) (H1' & H2' & H3' & H4' & H5').
  split; [congruence|]. split; [congruence|]. split; [congruence|].
  split; [congruence|].
  apply Forall2_same_length_lookup.
  apply Forall2_same_length_lookup in H5 as [Hl5 H5].
  apply Forall2_same_length_lookup in H5' as [Hl5' H5'].
  split; [congruence|]. intros i x z Hx Hz.
  destruct (lookup_lt_is_Some_2 (heap s1) i) as [y Hy].
  { rewrite <- Hl5. eapply lookup_lt_Some, Hx. }
  apply (same_def_trans x y z); [by apply (H5 i) | by apply (H5' i)].
Qed.

Lemma same_defs_put s0 s l a a' :
  same_defs s0 s → heap s !! l = Some a → same_def a a' →
  same_defs s0 (put l a' s).
Proof.
  intros Hs Ha Hd. apply (same_defs_trans s0 s); [done|].
  repeat split. cbn. apply Forall2_same_length_lookup.
  split; [by rewrite length_insert|]. intros i x y Hx Hy.
  destruct (decide (l = i)) as [<-|Hne].
  - rewrite list_lookup_insert_eq in Hy by (eapply lookup_lt_Some, Ha).
    rewrite Ha in Hx. by injection Hx as <-; injection Hy as <-.
  - rewrite list_lookup_insert_ne in Hy by done.
    rewrite Hx in Hy. injection Hy as <-. apply same_def_refl.
Qed.

(** Whatever touches only the fields outside the definitions. *)
Lemma same_defs_fields s0 s s' :
  anim s' = anim s → textureAtlas s' = textureAtlas s →
  atlasIndices s' = atlasIndices s → animationspeed s' = animationspeed s →
  heap s' = heap s → same_defs s0 s → same_defs s0 s'.
Proof. unfold same_defs. by intros -> -> -> -> ->. Qed.

Lemma keeps_bind {A B} P (m : M A) (k : A → M B) :
  keeps P m → (∀ a, keeps P (k a)) → keeps P (bind m k).
Proof.
  intros Hm Hk s Hs. unfold bind. specialize (Hm s Hs).
  destruct (m s) as [s1 [a|e]]; cbn [fst] in *; [|done]. by apply Hk.
Qed.

Lemma keeps_pure {A} P (m : M A) : (∀ s, fst (m s) = s) → keeps P m.
Proof. intros Hm s Hs. by rewrite Hm. Qed.

Lemma load_current_pure s : fst (load_current s) = s.
Proof.
  unfold load_current. destruct (current s) as [l|]; [|done].
  by destruct (heap s !! l).
Qed.

Lemma keeps_store_current s0 f :
  (∀ a, same_def a (f a)) → keeps (same_defs s0) (store_current f).
Proof.
  intros Hf s Hs. unfold store_current.
  destruct (current s) as [l|]; [|done].
  destruct (heap s !! l) as [a|] eqn:Ha; [|done]. cbn [fst].
  by apply (same_defs_put s0 s l a).
Qed.

Lemma keeps_on_current {A} P (on_anim : M A) on_host :
  keeps P on_anim → (∀ k h, keeps P (on_host k h)) → keeps P (on_current on_anim on_host).
Proof.
  intros Ha Hh s Hs. unfold on_current.
  destruct (host_current s) as [[k h]|]; [by apply Hh | by apply Ha].
Qed.

(** Writing an inherited value touches no animation. *)
Lemma keeps_store_host s0 k h : keeps (same_defs s0) (store_host k h).
Proof. intros s Hs. by apply (same_defs_fields s0 s). Qed.

Lemma keeps_setAnimationFrame s0 idx : keeps (same_defs s0) (setAnimationFrame idx).
Proof.
  unfold setAnimationFrame. apply keeps_on_current.
  - apply keeps_bind; [apply keeps_pure, load_current_pure | intros cur].
    apply keeps_bind; [by apply keeps_store_current | intros _].
    apply keeps_bind; [apply keeps_pure, load_current_pure | intros cur'].
    destruct (array_get _ _) as [f|]; [|by apply keeps_pure].
    intros s Hs. by apply (same_defs_fields s0 s).
  - intros k h. apply keeps_bind; [apply keeps_store_host | intros _].
    by apply keeps_pure.
Qed.

Lemma keeps_setCurrentAnimation s0 name r :
  keeps (same_defs s0) (setCurrentAnimation name r).
Proof.
  unfold setCurrentAnimation.
  apply keeps_bind; [by apply keeps_pure | intros [l|]].
  - apply keeps_bind; [intros s Hs; by apply (same_defs_fields s0 s) | intros _].
    apply keeps_bind; [intros s Hs; by apply (same_defs_fields s0 s) | intros _].
    apply keeps_bind; [apply keeps_pure, load_current_pure | intros cur].
    apply keeps_bind; [apply keeps_setAnimationFrame | intros _].
    apply keeps_bind; [apply keeps_pure, load_current_pure | intros cur'].
    by apply keeps_store_current.
  - apply keeps_bind; [by apply keeps_pure | intros [h|]]; [|by apply keeps_pure].
    apply keeps_bind; [intros s Hs; by apply (same_defs_fields s0 s) | intros _].
    apply keeps_bind; [intros s Hs; by apply (same_defs_fields s0 s) | intros _].
    apply keeps_bind; [apply keeps_setAnimationFrame | intros _].
    apply keeps_on_current; [by apply keeps_pure | intros k h'; apply keeps_store_host].
Qed.

Lemma keeps_rearm s0 dt : keeps (same_defs s0) (rearm dt).
Proof.
  unfold rearm, sprite_update.
  apply keeps_bind; [apply keeps_on_current | intros _].
  - apply keeps_bind; [apply keeps_pure, load_current_pure | intros cur].
    by apply keeps_store_current.
  - intros k h. apply keeps_store_host.
  - apply keeps_bind; [by apply keeps_pure | intros b]. by apply keeps_pure.
Qed.

Lemma keeps_hold s0 dt : keeps (same_defs s0) (hold dt).
Proof.
  unfold hold, sprite_update.
  apply keeps_bind; [apply keeps_on_current | intros _].
  - apply keeps_bind; [apply keeps_pure, load_current_pure | intros cur].
    apply keeps_bind; [by apply keeps_store_current | intros _].
    apply keeps_bind; [apply keeps_pure, load_current_pure | intros cur'].
    apply keeps_setAnimationFrame.
  - intros k h. cbn zeta.
    apply keeps_bind; [apply keeps_store_host | intros _].
    apply keeps_setAnimationFrame.
  - apply keeps_bind; [by apply keeps_pure | intros b]. by apply keeps_pure.
Qed.

Section Unchanged.

Variable callback : nat → Sheet → Sheet * value.
Hypothesis callback_defs : ∀ g s, same_defs s (fst (callback g s)).

Lemma keeps_call s0 g : keeps (same_defs s0) (call callback g).
Proof.
  intros s Hs. unfold call. pose proof (callback_defs g s) as Hc.
  destruct (callback g s) as [s' v]. cbn [fst] in *.
  apply (same_defs_fields s0 s'); try done. by apply (same_defs_trans s0 s).
Qed.

Lemma keeps_advance s0 dt : keeps (same_defs s0) (advance callback dt).
Proof.
  unfold advance.
  apply keeps_bind; [apply keeps_pure, load_current_pure | intros cur].
  apply keeps_bind; [by apply keeps_store_current | intros _].
  apply keeps_bind; [apply keeps_pure, load_current_pure | intros cur'].
  apply keeps_bind; [apply keeps_setAnimationFrame | intros _].
  apply keeps_bind; [apply keeps_pure, load_current_pure | intros cur''].
  apply keeps_bind; [by apply keeps_pure | intros r].
  destruct (is_zero _); [|apply keeps_rearm].
  destruct r as [[id|g]|]; [| |apply keeps_rearm].
  - destruct id as [|c id]; [apply keeps_rearm|].
    apply keeps_bind; [apply keeps_setCurrentAnimation | intros _; apply keeps_rearm].
  - apply keeps_bind; [apply keeps_call | intros v].
    destruct (strict_false v); [apply keeps_hold | apply keeps_rearm].
Qed.

Lemma keeps_update s0 dt : keeps (same_defs s0) (update callback dt).
Proof.
  unfold update, sprite_update.
  apply keeps_bind; [by apply keeps_pure | intros paused].
  destruct paused; [by apply keeps_pure|]. apply keeps_on_current.
  - apply keeps_bind; [apply keeps_pure, load_current_pure | intros cur].
    destruct (1 <? _); [|by apply keeps_pure].
    apply keeps_bind; [by apply keeps_store_current | intros _].
    apply keeps_bind; [apply keeps_pure, load_current_pure | intros cur'].
    destruct (_ <=? 0); [apply keeps_advance | by apply keeps_pure].
  - intros k h. destruct (match Host.length h with Some _ => _ | None => _ end);
      [|by apply keeps_pure].
    apply keeps_bind; [apply keeps_store_host | intros _]. by apply keeps_pure.
Qed.

Lemma keeps_ticks s0 dts : keeps (same_defs s0) (ticks callback dts).
Proof.
  induction dts as [|dt rest IH]; [by apply keeps_pure|].
  cbn [ticks]. apply keeps_bind; [apply keeps_update | intros b].
  apply keeps_bind; [apply IH | intros bs]. by apply keeps_pure.
Qed.

(** X11.  update, setAnimationFrame and setCurrentAnimation never define,
    remove or alter an animation.  Given callbacks that do not either, after
    any of them, also when it throws, the names point to the same objects,
    every stored animation has the name, frames, length and speed it had,
    and the atlas, its table of names and the default speed are the same:
    only frame indexes, countdowns, the current animation, the policy and
    the geometry move. *)
Theorem definitions_unchanged s :
  (∀ dts, same_defs s (fst (ticks callback dts s)))
  ∧ (∀ dt, same_defs s (fst (update callback dt s)))
  ∧ (∀ idx, same_defs s (fst (setAnimationFrame idx s)))
  ∧ (∀ name r, same_defs s (fst (setCurrentAnimation name r s))).
Proof.
  split; [intros dts; apply keeps_ticks, same_defs_refl|].
  split; [intros dt; apply keeps_update, same_defs_refl|].
  split; [intros idx; apply keeps_setAnimationFrame, same_defs_refl|].
  intros name r. apply keeps_setCurrentAnimation, same_defs_refl.
Qed.

End Unchanged.

Lemma definitions_unchanged_witness :
  anim (fst (ticks always_false [100; 100; 100] demo_sheet)) = anim demo_sheet
  ∧ Forall2 same_def (heap demo_sheet)
      (heap (fst (ticks always_false [100; 100; 100] demo_sheet))).
Proof.
  destruct (definitions_unchanged always_false (fun g s => same_defs_refl s) demo_sheet)
    as [H _].
  destruct (H [100; 100; 100]) as (H1 & _ & _ & _ & H5). by split.
Defined.

(** ** Names and isCurrentAnimation *)

Lemma names_ok_same_defs s0 s : names_ok s0 → same_defs s0 s → names_ok s.
Proof.
  intros H0 (Ha & _ & _ & _ & Hh). apply names_ok_spec. intros n l Hn.
  rewrite Ha in Hn. destruct (proj1 (names_ok_spec s0) H0 n l Hn) as (a0 & Hl & Hname).
  destruct (Forall2_lookup_l _ _ _ _ _ Hh Hl) as (a & Hla & Hd & _).
  exists a. split; [done|]. congruence.
Qed.

Lemma names_ok_stored name x s :
  names_ok s → Anim.name x = name → names_ok (stored name x s).
Proof.
  intros Hs Hx. apply names_ok_spec. intros n l. cbn.
  destruct (decide (name = n)) as [<-|Hne].
  - rewrite lookup_insert_eq. intros [= <-]. exists x. split; [|done].
    by apply list_lookup_middle.
  - rewrite lookup_insert_ne by done. intros Hn.
    destruct (proj1 (names_ok_spec s) Hs n l Hn) as (a & Hl & Hname).
    exists a. split; [|done]. by apply lookup_app_l_Some.
Qed.

Lemma isCurrentAnimation_at m s l a :
  active s l a → isCurrentAnimation m s = (s, Ret (bool_decide (Anim.name a = m))).
Proof.
  intros H. unfold isCurrentAnimation. rewrite (on_current_at _ _ _ _ _ H).
  by run_cur H.
Qed.

(** X12.  On a sheet where every name points to a stored animation that
    carries that name, as construction leaves it: addAnimation keeps it so,
    also when it throws, and so does setCurrentAnimation; and after
    setCurrentAnimation on a defined name, isCurrentAnimation answers true
    for that name and false for every other, leaving the sheet alone, even
    when the selection threw for want of a frame. *)
Theorem names_and_isCurrentAnimation s :
  names_ok s →
  (∀ name index speed, names_ok (fst (addAnimation name index speed s)))
  ∧ (∀ name r, names_ok (fst (setCurrentAnimation name r s)))
  ∧ (∀ name r m, is_Some (anim s !! name) →
       isCurrentAnimation m (fst (setCurrentAnimation name r s))
       = (fst (setCurrentAnimation name r s), Ret (bool_decide (name = m)))).
Proof.
  intros Hs. split; [|split].
  - intros name index speed. rewrite addAnimation_at. cbn zeta.
    destruct (resolve_prefix _ _ _) as [fs ok].
    destruct ok; by apply names_ok_stored.
  - intros name r. apply (names_ok_same_defs s); [done|].
    apply keeps_setCurrentAnimation, same_defs_refl.
  - intros name r m [l Hn].
    destruct (proj1 (names_ok_spec s) Hs name l Hn) as (a & Hl & Hname).
    rewrite (setCurrentAnimation_at _ _ _ _ _ Hn Hl). cbn zeta.
    set (s1 := set_resetAnim _ _). set (a' := Anim.set_idx _ a).
    assert (H1 : active s1 l a) by (by split).
    destruct (array_get _ _) as [f|]; cbn [fst].
    + rewrite (isCurrentAnimation_at m _ l (Anim.set_nextFrame (Anim.animationspeed a) a')).
      * cbn. by rewrite Hname.
      * apply active_geometry, (active_put _ _ _ _ H1).
    + rewrite (isCurrentAnimation_at m _ l a').
      * cbn. by rewrite Hname.
      * apply (active_put _ _ _ _ H1).
Qed.

Lemma names_and_isCurrentAnimation_witness :
  snd (isCurrentAnimation "eat" (fst (setCurrentAnimation "eat" None demo_sheet)))
    = Ret true
  ∧ snd (isCurrentAnimation "walk" (fst (setCurrentAnimation "eat" None demo_sheet)))
    = Ret false.
Proof.
  destruct (names_and_isCurrentAnimation demo_sheet) as (_ & _ & H);
    [vm_compute; reflexivity|].
  split.
  - rewrite (H "eat" None "eat"); [reflexivity|]. vm_compute. by eexists.
  - rewrite (H "eat" None "walk"); [reflexivity|]. vm_compute. by eexists.
Defined.

(** ** An inherited value as the current animation *)



Section ChainInherited.

Variable callback : nat → Sheet → Sheet * value.

(** X21.  Chaining to a name that [this.anim] merely inherits.  The due
    tick on the last frame wraps to frame 0, then selects the inherited
    value: the tick throws a TypeError, the sheet is left with that value as
    its current animation and no policy, the animation that finished on
    frame 0 with its countdown run out, and no callback called. *)
Theorem update_chain_inherited dt s l a id h :
  active s l a → anim_ok a → animationpause s = false → 1 < Anim.length a →
  resetAnim s = Some (Chain id) → id ≠ "" →
  Anim.idx a = Int (Anim.length a - 1) → Anim.nextFrame a - dt ≤ 0 →
  anim s !! id = None → inherited s !! id = Some h →
  snd (update callback dt s) = Throw TypeError
  ∧ cur_anim (fst (update callback dt s)) = None
  ∧ host_current (fst (update callback dt s))
    = Some (id, Host.set_idx (js_rem (or_zero (Some (Host.idx h)))
                                (Host.length_number h)) h)
  ∧ resetAnim (fst (update callback dt s)) = None
  ∧ heap (fst (update callback dt s)) !! l
    = Some (Anim.mk (Anim.name a) (Anim.frame a) (Int 0) (Anim.length a)
              (Anim.animationspeed a) (Anim.nextFrame a - dt))
  ∧ Some (geometry (fst (update callback dt s))) = array_get (Anim.frame a) (Int 0)
  ∧ cb_calls (fst (update callback dt s)) = cb_calls s.
Proof.
  intros H Hok Hp Hlen Hr Hid Hi Hdue Hn Hinh.
  destruct (anim_ok_frame a 0 Hok ltac:(lia)) as [f0 Hf0].
  rewrite (update_wrap_chain _ _ _ _ _ _ f0 H Hp Hlen Hr Hid Hi Hdue Hf0).
  set (a0 := Anim.mk _ _ (Int 0) _ _ _).
  unfold bind. rewrite (setCurrentAnimation_inherited id None _ h) by done.
  cbn [fst snd]. split; [done|]. split; [done|]. split.
  { unfold host_current. cbn. by rewrite lookup_insert_eq. }
  split; [done|]. split.
  { cbn. apply list_lookup_insert_eq. eapply lookup_lt_Some, H. }
  split; [|done]. rewrite Hf0. by destruct f0.
Qed.

End ChainInherited.

Lemma update_chain_inherited_witness :
  let s := fst (update no_callbacks 100
                  (fst (setCurrentAnimation "eat" (Some (Chain "toString")) demo_sheet))) in
  activeName s = Some "eat"
  ∧ snd (update no_callbacks 100 s) = Throw TypeError
  ∧ activeName (fst (update no_callbacks 100 s)) = None
  ∧ resetAnim (fst (update no_callbacks 100 s)) = None.
Proof.
  cbn zeta. split; [vm_compute; reflexivity|].
  destruct (update_chain_inherited no_callbacks 100
              (fst (update no_callbacks 100
                  (fst (setCurrentAnimation "eat" (Some (Chain "toString")) demo_sheet))))
              2%nat
              (Anim.mk "eat" [Some (demo_cell 6); Some (demo_cell 6)] (Int 1) 2 100 100)
              "toString" (Host.mk (Some "toString") (Some 0) NaN NaN))
    as (H1 & H2 & _ & H4 & _).
  - split; vm_compute; reflexivity.
  - vm_compute. reflexivity.
  - vm_compute. reflexivity.
  - cbn. lia.
  - vm_compute. reflexivity.
  - discriminate.
  - reflexivity.
  - cbn. lia.
  - vm_compute. reflexivity.
  - vm_compute. reflexivity.
  - split; [exact H1|]. split; [|exact H4]. unfold activeName. by rewrite H2.
Defined.

(** * Properties of me.device *)

Lemma listener_add_remove (x : string * nat) (L : gset (string * nat)) :
  x ∉ L → ({[x]} ∪ L) ∖ {[x]} = L.
Proof.
  intros Hx. apply set_eq. intros y.
  rewrite elem_of_difference, elem_of_union, elem_of_singleton. split.
  - by intros [[->|Hy] Hne].
  - intros Hy. split; [by right|]. by intros ->.
Qed.

Lemma listener_added (x : string * nat) (L : gset (string * nat)) : x ∈ {[x]} ∪ L.
Proof. apply elem_of_union_l. by apply elem_of_singleton. Qed.

(** ** The accelerometer *)

(** X13.  watchAccelerometer is idempotent: a second call changes nothing
    more and answers the same, also when the first one threw.  Without an
    accelerometer it answers false and changes nothing.  In a browser (no
    [Windows] global) with an accelerometer it answers true and leaves the
    devicemotion listener registered and the watch flag set, whether or not
    it was watching before. *)
Theorem watchAccelerometer_idempotent d :
  Device.watchAccelerometer (fst (Device.watchAccelerometer d))
    = Device.watchAccelerometer d
  ∧ (Device.hasAccelerometer d = false →
     Device.watchAccelerometer d = (d, Ret false))
  ∧ (Device.hasAccelerometer d = true → Device.Windows d = None →
     (Device.accelInitialized d = false
      ∨ ("devicemotion", Device.onDeviceMotion) ∈ Device.listeners d) →
     snd (Device.watchAccelerometer d) = Ret true
     ∧ Device.accelInitialized (fst (Device.watchAccelerometer d)) = true
     ∧ ("devicemotion", Device.onDeviceMotion)
       ∈ Device.listeners (fst (Device.watchAccelerometer d))).
Proof.
  unfold Device.watchAccelerometer. split; [|split].
  - destruct (Device.hasAccelerometer d) eqn:Hh; cbn [fst]; [|by rewrite Hh].
    destruct (Device.accelInitialized d) eqn:Hi; cbn [negb fst].
    { by rewrite Hh, Hi. }
    destruct (Device.Windows d) as [rt|] eqn:Hw; cbn [fst].
    + destruct (Device.Devices rt) eqn:Hd; cbn [fst].
      * destruct (Device.getDefault rt); cbn [fst];
          by cbn [Device.hasAccelerometer Device.accelInitialized
                  Device.set_accelInitialized Device.set_Windows negb]; rewrite Hh.
      * by rewrite Hh, Hi, Hw, Hd.
    + by cbn [Device.hasAccelerometer Device.accelInitialized Device.addEventListener
              Device.set_listeners Device.set_accelInitialized negb]; rewrite Hh.
  - by intros ->.
  - intros -> -> Hor. destruct (Device.accelInitialized d) eqn:Hi; cbn.
    + by destruct Hor as [?|Hin].
    + split; [done|]. split; [done|]. apply listener_added.
Qed.

Lemma watchAccelerometer_idempotent_witness :
  let d := Device.mk true false false ∅ false false ∅ None in
  snd (Device.watchAccelerometer d) = Ret true
  ∧ ("devicemotion", Device.onDeviceMotion)
    ∈ Device.listeners (fst (Device.watchAccelerometer d)).
Proof.
  destruct (watchAccelerometer_idempotent (Device.mk true false false ∅ false false ∅ None))
    as (_ & _ & H).
  destruct H as (H1 & _ & H3); [reflexivity | reflexivity | by left |].
  by split.
Defined.

(** X14.  In a browser, watching then unwatching the accelerometer is a
    round trip: on a device that was not watching, whose devicemotion
    listener was not registered, unwatchAccelerometer after
    watchAccelerometer gives back the device exactly as it was. *)
Theorem unwatch_watchAccelerometer d :
  Device.Windows d = None → Device.accelInitialized d = false →
  ("devicemotion", Device.onDeviceMotion) ∉ Device.listeners d →
  Device.unwatchAccelerometer (fst (Device.watchAccelerometer d)) = (d, Ret tt).
Proof.
  intros Hw Hi Hnot. unfold Device.watchAccelerometer.
  destruct (Device.hasAccelerometer d) eqn:Hh; cbn [fst].
  - rewrite Hi, Hw. cbn [negb fst]. unfold Device.unwatchAccelerometer. cbn.
    rewrite Hw. f_equal. unfold Device.set_accelInitialized. cbn.
    rewrite (listener_add_remove _ _ Hnot). destruct d. cbn in *. by subst.
  - unfold Device.unwatchAccelerometer. by rewrite Hi.
Qed.

Lemma unwatch_watchAccelerometer_witness :
  let d := Device.mk true true false ∅ false false
             {[ ("deviceorientation", Device.onDeviceRotate) ]} None in
  Device.unwatchAccelerometer (fst (Device.watchAccelerometer d)) = (d, Ret tt).
Proof.
  apply unwatch_watchAccelerometer; [reflexivity | reflexivity |].
  cbn. rewrite elem_of_singleton. discriminate.
Defined.

(** X15.  On a Windows 8 device with a default accelerometer,
    watchAccelerometer answers true, registers the reading handler on the
    sensor and sets its report interval to the sensor's minimum when that is
    at least 16 ms and to 25 ms otherwise: never below 16 ms and never
    below the sensor's minimum. *)
Theorem watchAccelerometer_windows d rt acc :
  Device.hasAccelerometer d = true → Device.accelInitialized d = false →
  Device.Windows d = Some rt → Device.Devices rt = true →
  Device.getDefault rt = Some acc →
  ∃ acc',
    snd (Device.watchAccelerometer d) = Ret true
    ∧ (Device.Windows (fst (Device.watchAccelerometer d)) ≫= Device.getDefault)
      = Some acc'
    ∧ Device.onDeviceMotion ∈ Device.readingchanged acc'
    ∧ 16 ≤ Device.reportInterval acc'
    ∧ Device.minimumReportInterval acc ≤ Device.reportInterval acc'
    ∧ (16 ≤ Device.minimumReportInterval acc →
       Device.reportInterval acc' = Device.minimumReportInterval acc)
    ∧ (Device.minimumReportInterval acc < 16 → Device.reportInterval acc' = 25)
    ∧ Device.accelInitialized (fst (Device.watchAccelerometer d)) = true
    ∧ Device.listeners (fst (Device.watchAccelerometer d)) = Device.listeners d.
Proof.
  intros Hh Hi Hw Hd Hg. unfold Device.watchAccelerometer.
  rewrite Hh, Hi, Hw, Hd, Hg. cbn [negb].
  eexists. split; [reflexivity|]. split; [reflexivity|]. cbn.
  split; [apply elem_of_union_l; by apply elem_of_singleton|]. unfold Device.Interval.
  destruct (Z.leb_spec 16 (Device.minimumReportInterval acc)); repeat split; lia.
Qed.

Lemma watchAccelerometer_windows_witness :
  let d := Device.mk true false false ∅ false false ∅
             (Some (Device.mkWinRT true false (Some (Device.mkAccelerometer 10 0 ∅)))) in
  ∃ acc', (Device.Windows (fst (Device.watchAccelerometer d)) ≫= Device.getDefault)
          = Some acc'
          ∧ Device.reportInterval acc' = 25.
Proof.
  destruct (watchAccelerometer_windows
              (Device.mk true false false ∅ false false ∅
                 (Some (Device.mkWinRT true false (Some (Device.mkAccelerometer 10 0 ∅)))))
              (Device.mkWinRT true false (Some (Device.mkAccelerometer 10 0 ∅)))
              (Device.mkAccelerometer 10 0 ∅))
    as (acc' & _ & H2 & _ & _ & _ & _ & H7 & _); try reflexivity.
  exists acc'. split; [exact H2|]. apply H7. cbn. lia.
Defined.

(** X16.  On a Windows 8 device unwatchAccelerometer looks the sensor up
    under [Windows.Device], not under the [Windows.Devices] that
    watchAccelerometer uses.  When a watch is on and [Windows.Device] is
    not there, or there is no default sensor, it throws a TypeError and
    changes nothing: the watch flag stays set and the reading handler stays
    registered, so that a later watchAccelerometer does nothing either. *)
Theorem unwatchAccelerometer_windows_throws d rt :
  Device.accelInitialized d = true → Device.Windows d = Some rt →
  (Device.Device rt = false ∨ Device.getDefault rt = None) →
  Device.unwatchAccelerometer d = (d, Throw TypeError)
  ∧ (Device.hasAccelerometer d = true →
     Device.watchAccelerometer d = (d, Ret true)).
Proof.
  intros Hi Hw Hor. split.
  - unfold Device.unwatchAccelerometer. rewrite Hi, Hw.
    destruct Hor as [-> | ->]; [done|]. by destruct (Device.Device rt).
  - intros Hh. unfold Device.watchAccelerometer. by rewrite Hh, Hi.
Qed.

Lemma unwatchAccelerometer_windows_throws_witness :
  let d := Device.mk true false false ∅ false false ∅
             (Some (Device.mkWinRT true false (Some (Device.mkAccelerometer 20 0 ∅)))) in
  snd (Device.watchAccelerometer d) = Ret true
  ∧ Device.unwatchAccelerometer (fst (Device.watchAccelerometer d))
    = (fst (Device.watchAccelerometer d), Throw TypeError).
Proof.
  cbn zeta. split; [reflexivity|].
  eapply unwatchAccelerometer_windows_throws; [reflexivity | reflexivity | by left].
Defined.

(** ** The device orientation *)

(** X17.  watchDeviceOrientation answers false in every case, also when it
    has just registered the listener.  It is idempotent, and on a device
    that was not watching, whose deviceorientation listener was not
    registered, unwatchDeviceOrientation after it gives back the device
    exactly as it was. *)
Theorem watchDeviceOrientation_false d :
  snd (Device.watchDeviceOrientation d) = false
  ∧ Device.watchDeviceOrientation (fst (Device.watchDeviceOrientation d))
    = Device.watchDeviceOrientation d
  ∧ (Device.hasDeviceOrientation d = true →
     Device.deviceOrientationInitialized d = false →
     ("deviceorientation", Device.onDeviceRotate)
       ∈ Device.listeners (fst (Device.watchDeviceOrientation d)))
  ∧ (Device.deviceOrientationInitialized d = false →
     ("deviceorientation", Device.onDeviceRotate) ∉ Device.listeners d →
     Device.unwatchDeviceOrientation (fst (Device.watchDeviceOrientation d)) = d).
Proof.
  unfold Device.watchDeviceOrientation.
  destruct (Device.hasDeviceOrientation d) eqn:Hh;
    destruct (Device.deviceOrientationInitialized d) eqn:Hi; cbn [andb negb fst snd].
  - split; [done|]. split; [by rewrite Hh, Hi|]. split; [done|]. done.
  - split; [done|]. split; [by cbn; rewrite Hh|]. split.
    + intros _ _. apply listener_added.
    + intros _ Hnot. unfold Device.unwatchDeviceOrientation. cbn.
      unfold Device.set_deviceOrientationInitialized. cbn.
      rewrite (listener_add_remove _ _ Hnot). destruct d. cbn in *. by subst.
  - split; [done|]. split; [by rewrite Hh|]. split; [done|]. done.
  - split; [done|]. split; [by rewrite Hh|]. split; [done|].
    intros _ _. unfold Device.unwatchDeviceOrientation. by rewrite Hi.
Qed.

Lemma watchDeviceOrientation_false_witness :
  let d := Device.mk false true false ∅ false false ∅ None in
  ("deviceorientation", Device.onDeviceRotate)
    ∈ Device.listeners (fst (Device.watchDeviceOrientation d))
  ∧ Device.unwatchDeviceOrientation (fst (Device.watchDeviceOrientation d)) = d.
Proof.
  destruct (watchDeviceOrientation_false (Device.mk false true false ∅ false false ∅ None))
    as (_ & _ & H3 & H4).
  split; [by apply H3|]. apply H4; [reflexivity|]. apply not_elem_of_empty.
Defined.

(** ** The audio codecs *)

Lemma truthy_replace_no ans :
  Device.truthy (Device.replace_no ans) = bool_decide (ans ≠ "" ∧ ans ≠ "no").
Proof.
  unfold Device.truthy, Device.replace_no.
  destruct (String.eqb_spec ans "no") as [->|Hno];
    [by rewrite bool_decide_false by (by intros [_ ?])|].
  destruct (String.eqb_spec ans "") as [->|He]; cbn.
  - by rewrite bool_decide_false by (by intros [? _]).
  - by rewrite bool_decide_true.
Qed.

(** X18.  The codec probe.  When [new Audio()] throws, nothing changes:
    sound stays off and the codec table is as it was.  Otherwise sound is
    on and the table is rebuilt with six entries; a codec is marked
    supported exactly when canPlayType answers neither the empty string nor
    "no".  For m4a the answer for audio/aac is consulted only when the one
    for audio/x-m4a is empty: an answer "no" for audio/x-m4a marks m4a
    unsupported whatever audio/aac would answer. *)
Theorem detectAudio_codecs audio d :
  (audio = None → Device._detectAudio audio d = d)
  ∧ ∀ canPlayType, audio = Some canPlayType →
      let codecs := Device.audioCodecs (Device._detectAudio audio d) in
      let yes (ans : string) := bool_decide (ans ≠ "" ∧ ans ≠ "no") in
      Device.sound (Device._detectAudio audio d) = true
      ∧ codecs !! "mp3" = Some (yes (canPlayType "audio/mpeg;"))
      ∧ codecs !! "opus"
        = Some (yes (canPlayType ("audio/ogg; codecs=" +:+ Device.dq +:+ "opus" +:+ Device.dq)))
      ∧ codecs !! "ogg"
        = Some (yes (canPlayType ("audio/ogg; codecs=" +:+ Device.dq +:+ "vorbis" +:+ Device.dq)))
      ∧ codecs !! "wav"
        = Some (yes (canPlayType ("audio/wav; codecs=" +:+ Device.dq +:+ "1" +:+ Device.dq)))
      ∧ codecs !! "weba"
        = Some (yes (canPlayType ("audio/webm; codecs=" +:+ Device.dq +:+ "vorbis" +:+ Device.dq)))
      ∧ codecs !! "m4a"
        = Some (if bool_decide (canPlayType "audio/x-m4a;" = "")
                then yes (canPlayType "audio/aac;")
                else yes (canPlayType "audio/x-m4a;"))
      ∧ (canPlayType "audio/x-m4a;" = "no" → codecs !! "m4a" = Some false)
      ∧ ∀ k, is_Some (codecs !! k) →
             k ∈ ["mp3"; "opus"; "ogg"; "wav"; "m4a"; "weba"].
Proof.
  split; [by intros ->|]. intros canPlayType ->. cbn zeta.
  cbn [Device._detectAudio Device.sound Device.audioCodecs Device.set_audio].
  rewrite <- !truthy_replace_no.
  assert (Hm4a :
    Device.truthy (Device.replace_no
      (if Device.truthy (canPlayType "audio/x-m4a;")
       then canPlayType "audio/x-m4a;" else canPlayType "audio/aac;"))
    = if bool_decide (canPlayType "audio/x-m4a;" = "")
      then Device.truthy (Device.replace_no (canPlayType "audio/aac;"))
      else Device.truthy (Device.replace_no (canPlayType "audio/x-m4a;"))).
  { assert (Ht : Device.truthy (canPlayType "audio/x-m4a;")
                 = negb (bool_decide (canPlayType "audio/x-m4a;" = ""))).
    { unfold Device.truthy. f_equal.
      destruct (String.eqb_spec (canPlayType "audio/x-m4a;") "") as [He|He].
      - by rewrite bool_decide_true.
      - by rewrite bool_decide_false. }
    rewrite Ht. by destruct (bool_decide _). }
  split; [done|].
  split; [by simplify_map_eq|]. split; [by simplify_map_eq|].
  split; [by simplify_map_eq|]. split; [by simplify_map_eq|].
  split; [by simplify_map_eq|].
  assert (Hlook : ∀ b1 b2 b3 b4 b5 b6 : bool,
    (<["mp3" := b1]> (<["opus" := b2]> (<["ogg" := b3]> (<["wav" := b4]>
       (<["m4a" := b5]> (<["weba" := b6]> (∅ : gmap string bool))))))) !! "m4a"
    = Some b5) by (intros; by simplify_map_eq).
  split; [by rewrite Hlook, Hm4a|].
  split.
  - intros Hno. by rewrite Hlook, Hm4a, Hno.
  - intros k [b Hk].
    repeat (apply lookup_insert_Some in Hk as [[<- _]|[_ Hk]];
            [repeat (first [by apply elem_of_cons; left | apply elem_of_cons; right])|]).
    done.
Qed.

Lemma detectAudio_codecs_witness :
  let canPlayType (mime : string) : string :=
    if String.eqb mime "audio/x-m4a;" then "no"
    else if String.eqb mime "audio/aac;" then "probably"
    else if String.eqb mime "audio/mpeg;" then "maybe" else "" in
  let d := Device._detectAudio (Some canPlayType)
             (Device.mk false false false ∅ false false ∅ None) in
  Device.sound d = true
  ∧ Device.audioCodecs d !! "mp3" = Some true
  ∧ Device.audioCodecs d !! "m4a" = Some false.
Proof.
  cbn zeta.
  destruct (detectAudio_codecs
              (Some (fun mime : string =>
                       if String.eqb mime "audio/x-m4a;" then "no"
                       else if String.eqb mime "audio/aac;" then "probably"
                       else if String.eqb mime "audio/mpeg;" then "maybe" else ""))
              (Device.mk false false false ∅ false false ∅ None)) as [_ H].
  destruct (H _ eq_refl) as (H1 & H2 & _ & _ & _ & _ & _ & H8 & _).
  split; [exact H1|]. split; [exact H2|]. by apply H8.
Defined.

(** ** The pixel ratio *)

Section PixelRatioFacts.

Variable num : Type.
Variable is_truthy : num → bool.
Variable one : num.
Variable div : num → num → num.

(** [a || b] picks [a] when it is there and truthy, [b] otherwise. *)
Lemma or_else_falsy (a : option num) (b : num) :
  (∀ y, a = Some y → is_truthy y = false) →
  Device.or_else num is_truthy a b = b.
Proof. intros H. destruct a as [y|]; [|done]. cbn. by rewrite (H y eq_refl). Qed.

Lemma or_else_truthy (y b : num) :
  is_truthy y = true → Device.or_else num is_truthy (Some y) b = y.
Proof. intros H. cbn. by rewrite H. Qed.

(** X19.  getPixelRatio computes the ratio once.  Whatever a call found in
    the private variable, the next call answers the same and leaves the
    variable as it is, whatever the window and the screen context report by
    then.  The first call divides the window's ratio, or 1 when that is
    absent or falsy, by the first truthy backing-store ratio in the order
    webkit, moz, ms, o, unprefixed: the one before which every ratio is
    absent or falsy, whatever comes after it; or by 1 when none of the five
    is truthy. *)
Theorem getPixelRatio_cached w c cache w' c' :
  let ratios := [Device.webkitBackingStorePixelRatio num c;
                 Device.mozBackingStorePixelRatio num c;
                 Device.msBackingStorePixelRatio num c;
                 Device.oBackingStorePixelRatio num c;
                 Device.backingStorePixelRatio num c] in
  let falsy (x : option num) := ∀ y, x = Some y → is_truthy y = false in
  Device.getPixelRatio num is_truthy one div w' c'
    (fst (Device.getPixelRatio num is_truthy one div w c cache))
  = Device.getPixelRatio num is_truthy one div w c cache
  ∧ (cache = None →
     ∀ x, (w = Some x ∧ is_truthy x = true) ∨ (x = one ∧ falsy w) →
       (∀ before y after,
          ratios = before ++ Some y :: after → Forall falsy before →
          is_truthy y = true →
          Device.getPixelRatio num is_truthy one div w c cache
          = (Some (div x y), div x y))
       ∧ (Forall falsy ratios →
          Device.getPixelRatio num is_truthy one div w c cache
          = (Some (div x one), div x one))).
Proof.
  cbn zeta. split; [by destruct cache|].
  intros -> x Hx.
  assert (Hw : Device.or_else num is_truthy w one = x).
  { destruct Hx as [[-> Hx]|[-> Hx]];
      [by apply or_else_truthy | by apply or_else_falsy]. }
  unfold Device.getPixelRatio. cbn zeta. rewrite Hw. clear Hx Hw.
  destruct c as [c1 c2 c3 c4 c5].
  cbn [Device.webkitBackingStorePixelRatio Device.mozBackingStorePixelRatio
       Device.msBackingStorePixelRatio Device.oBackingStorePixelRatio
       Device.backingStorePixelRatio].
  split.
  - intros before y after Heq Hbefore Hy.
    destruct before as [|b1 [|b2 [|b3 [|b4 [|b5 before]]]]];
      cbn [app] in Heq; injection Heq; intros; subst;
      [..|by destruct before];
      repeat match goal with
             | H : Forall _ (_ :: _) |- _ => apply Forall_cons in H as [? H]
             end;
      repeat match goal with
             | H : ∀ z, ?b = Some z → is_truthy z = false |- _ =>
                 rewrite (or_else_falsy b _ H); clear H
             end;
      by rewrite or_else_truthy.
  - intros Hall.
    repeat match goal with
           | H : Forall _ (_ :: _) |- _ => apply Forall_cons in H as [? H]
           end.
    repeat match goal with
           | H : ∀ z, ?b = Some z → is_truthy z = false |- _ =>
               rewrite (or_else_falsy b _ H); clear H
           end.
    done.
Qed.

End PixelRatioFacts.

Lemma getPixelRatio_cached_witness :
  let truthy (z : Z) := negb (z =? 0) in
  let c := Device.mkContext Z (Some 0) None None (Some 3) (Some 1) in
  Device.getPixelRatio Z truthy 1 Z.div (Some 6) c None = (Some 2, 2)
  ∧ Device.getPixelRatio Z truthy 1 Z.div (Some 9)
      (Device.mkContext Z None None None None None)
      (fst (Device.getPixelRatio Z truthy 1 Z.div (Some 6) c None))
    = (Some 2, 2).
Proof.
  cbn zeta.
  destruct (getPixelRatio_cached Z (fun z => negb (z =? 0)) 1 Z.div (Some 6)
              (Device.mkContext Z (Some 0) None None (Some 3) (Some 1)) None
              (Some 9) (Device.mkContext Z None None None None None)) as [Hc Hfirst].
  destruct (Hfirst eq_refl 6) as [Hord _]; [by left|].
  assert (H : Device.getPixelRatio Z (fun z => negb (z =? 0)) 1 Z.div (Some 6)
                (Device.mkContext Z (Some 0) None None (Some 3) (Some 1)) None
              = (Some (6 / 3), 6 / 3)).
  { apply (Hord [Some 0; None; None] 3 [Some 1]); [reflexivity | | reflexivity].
    repeat constructor; intros y [= <-]; reflexivity. }
  rewrite Hc, H. split; reflexivity.
Defined.
